(** * The root-module manager of terraform-ls
    (internal/terraform/rootmodule/root_module_manager.go)

    A shallow embedding of the manager: the registry of root modules, the
    path lookups, the schema resolution, registration with synchronous or
    asynchronous loading, and cancellation.  Go pointers to root modules are
    locations in a heap, the manager's methods are functions in a small state
    monad over the whole program state.  A call is one step, and so is the
    run of a queued load: what a call could observe in the middle of another
    one is outside this model. *)

From Stdlib Require Import ZArith Lia Ascii.
From Stdlib Require String.
From stdpp Require Import base list strings relations.

(** ** Go's [strings.HasSuffix] and [strings.TrimSuffix] *)

Module GoStrings.

(** [len(s) >= len(suffix) && s[len(s)-len(suffix):] == suffix] *)
Definition HasSuffix (s suffix : string) : bool :=
  (String.length suffix <=? String.length s) &&
  String.eqb
    (String.substring (String.length s - String.length suffix)
                      (String.length suffix) s)
    suffix.

(** [if HasSuffix(s, suffix) { return s[:len(s)-len(suffix)] }; return s] *)
Definition TrimSuffix (s suffix : string) : string :=
  if HasSuffix s suffix
  then String.substring 0 (String.length s - String.length suffix) s
  else s.

End GoStrings.

(** ** Paths on Unix *)

Module Unix.

(** [os.PathSeparator] *)
Definition Separator : ascii := "/"%char.

(** The elements of a path: what stands between separators. *)
Fixpoint elements (path : string) : list string :=
  match path with
  | EmptyString => [EmptyString]
  | String c rest =>
      if Ascii.eqb c Separator then EmptyString :: elements rest
      else
        match elements rest with
        | e :: es => String c e :: es
        | [] => [String c EmptyString]
        end
  end.

Definition rooted (path : string) : bool :=
  match path with
  | String c _ => Ascii.eqb c Separator
  | EmptyString => false
  end.

(** One element against the elements kept so far, the last one first:
    empty and [.] elements go, [..] removes the element before it, or stays
    when there is none to remove and the path is not rooted. *)
Definition cleanStep (root : bool) (kept : list string) (elem : string)
  : list string :=
  if String.eqb elem EmptyString || String.eqb elem "." then kept
  else if String.eqb elem ".." then
    match kept with
    | top :: below => if String.eqb top ".." then elem :: kept else below
    | [] => if root then [] else [elem]
    end
  else elem :: kept.

Definition join (elems : list string) : string := String.concat "/" elems.

(** Go's [filepath.Clean] for Unix paths (the standard library's rules:
    one separator between elements, no [.] element, no inner [..] element
    nor the element before it, no [..] at the start of a rooted path, and
    ["."] for an empty result). *)
Definition Clean (path : string) : string :=
  let kept := rev (fold_left (cleanStep (rooted path)) (elements path) []) in
  if rooted path then "/" +:+ join kept
  else
    match kept with
    | [] => "."
    | _ => join kept
    end.

(** [filepath.Join]: the elements from the first non-empty one on, joined
    by separators and cleaned; the empty string when there is none. *)
Fixpoint Join (elems : list string) : string :=
  match elems with
  | [] => EmptyString
  | e :: rest =>
      if String.eqb e EmptyString then Join rest else Clean (join elems)
  end.

Definition PathSeparator : string := String Separator EmptyString.

(** Modelled from the spec: the plugin lock file and the module manifest of
    a root live under its [.terraform] directory ([pluginLockFilePaths] and
    [moduleManifestFilePath] are not part of the sources).  The manifest is
    [.terraform/modules/modules.json]; for the lock file, which the spec
    only places under [.terraform], one path is taken. *)
Definition pluginLockFilePaths (dir : string) : list string :=
  [Join [dir; ".terraform"; "plugins"; "selections.json"]].

Definition moduleManifestFilePath (dir : string) : string :=
  Join [dir; ".terraform"; "modules"; "modules.json"].

End Unix.

(** ** Data model *)

(** A pointer to a root module ([*rootModule]). *)
Abbreviation loc := nat (only parsing).

(** The error values the manager builds or passes on. *)
Inductive error : Type :=
| ErrAlreadyAdded (dir : string)
    (* fmt.Errorf("root module %s was already added", dir) *)
| RootModuleNotFoundErr (path : string)
    (* &RootModuleNotFoundErr{path} *)
| ErrFailedToGetRootModule (err : error)
    (* fmt.Errorf("failed to get root module: %+v", err) *)
| ErrFailedToInit (err : error)
    (* fmt.Errorf("failed to init root module: %+v", err) *)
| ErrCollaborator (msg : string).
    (* an error returned by a root module or a collaborator *)

(** What the manager writes through [rmm.logger.Printf], together with the
    calls it makes on root modules and on the worker pool, in the order they
    happen. *)
Inductive event : Type :=
| LogSyncLoading (dir : string)
| LogAsyncLoading (dir : string)
| LogMergeFailed (rmPath : string) (err : error)
| LogFoundSchema (path rmPath : string)
| LogCancelling (rmPath : string)
| LogCancelled (rmPath : string)
| EvCancelLoading (rm : loc)
| EvSubmit (rm : loc)
| EvPoolStop.

(** Modelled from the spec: the waiting queue and the stopped flag of the
    bounded task pool (github.com/gammazero/workerpool, not part of the
    sources).  A task of the manager is the closure that loads one root
    module, so the queue holds the captured pointers. *)
Record workerPool : Type := mkPool {
  waitingQueue : list loc;
  stopped : bool
}.

Section Manager.

(** Collaborators and platform constants that are not in the manager's file. *)
Variable BodySchema : Type.             (* schema.BodySchema *)
Variable context : Type.                (* context.Context *)
Variable Background : context.          (* context.Background() *)
Variable Env : Type.                    (* file system and installed toolchain *)
Variable Clean : string -> string.      (* filepath.Clean *)
Variable PathSeparator : string.        (* string(os.PathSeparator) *)
Variable pluginLockFilePaths : string -> list string.
Variable moduleManifestFilePath : string -> string.

(** Modelled from the spec: the part of a root module that its own
    operations compute and cache (root_module.go is not part of the sources):
    the init outcome reported by [WasInitialized], the sub-module directories
    of the manifest, and what [MergedSchema] answers. *)
Record rmState : Type := mkState {
  st_initialized : bool;
  st_initErr : option error;
  st_referencedModulePaths : list string;
  st_mergedSchema : option BodySchema;
  st_schemaErr : option error
}.

(** Modelled from the spec: a root entity.  [rm_path] and the three
    toolchain settings are written once, by the factory; the state, the
    cancellation flag and the load error belong to the entity. *)
Record rootModule : Type := mkRootModule {
  rm_path : string;
  rm_tfExecPath : string;
  rm_tfExecTimeout : Z;                 (* time.Duration: nanoseconds *)
  rm_tfExecLogPath : string;
  rm_state : rmState;
  rm_cancelled : bool;
  rm_loadErr : option error
}.

(** What the file system and the toolchain answer to a root entity: the
    outcome of the cache discovery of a directory, of one load, of a run of
    the toolchain's init command (which also changes the file system) and of
    a refresh of the schema cache. *)
Variable discoverCachesOutcome :
  Env -> string -> rootModule -> rmState * option error.
Variable loadOutcome : Env -> context -> rootModule -> rmState * option error.
Variable initOutcome :
  Env -> context -> rootModule -> Env * rmState * option error.
Variable schemaCacheOutcome :
  Env -> context -> rootModule -> rmState * option error.

Record rootModuleManager : Type := mkManager {
  rms : list loc;
  syncLoading : bool;
  pool : workerPool;
  tfExecPath : string;
  tfExecTimeout : Z;
  tfExecLogPath : string
}.

(** The program state: the root modules the pointers refer to, the manager,
    the outside world, and what has been logged and signalled so far. *)
Record world : Type := mkWorld {
  heap : list rootModule;
  rmm : rootModuleManager;
  env : Env;
  trace : list event
}.

Definition emptyState : rmState := mkState false None [] None None.

(** The zero value of the struct, read through a dangling pointer only. *)
Definition zeroRootModule : rootModule :=
  mkRootModule EmptyString EmptyString 0 EmptyString emptyState false None.

Definition deref (w : world) (l : loc) : rootModule :=
  default zeroRootModule (heap w !! l).

(** ** The state monad of the manager's methods *)

Definition M (A : Type) : Type := world -> A * world.

#[local] Instance M_ret : MRet M := fun A a w => (a, w).
#[local] Instance M_bind : MBind M :=
  fun A B f m w => let '(a, w') := m w in f a w'.

Definition gets {A : Type} (f : world -> A) : M A := fun w => (f w, w).
Definition modify (f : world -> world) : M unit := fun w => (tt, f w).

Definition with_heap (h : list rootModule) (w : world) : world :=
  mkWorld h (rmm w) (env w) (trace w).
Definition with_rmm (m : rootModuleManager) (w : world) : world :=
  mkWorld (heap w) m (env w) (trace w).
Definition with_env (e : Env) (w : world) : world :=
  mkWorld (heap w) (rmm w) e (trace w).
Definition with_trace (t : list event) (w : world) : world :=
  mkWorld (heap w) (rmm w) (env w) t.

Definition emit (e : event) : M unit :=
  modify (fun w => with_trace (trace w ++ [e]) w).

Definition update (l : loc) (f : rootModule -> rootModule) : M unit :=
  modify (fun w => with_heap (alter f l (heap w)) w).

Fixpoint forM_ {A : Type} (xs : list A) (body : A -> M unit) : M unit :=
  match xs with
  | [] => mret tt
  | x :: xs' => body x ;; forM_ xs' body
  end.

(** ** Root modules, as the manager uses them *)

Definition set_state (st : rmState) (rm : rootModule) : rootModule :=
  mkRootModule (rm_path rm) (rm_tfExecPath rm) (rm_tfExecTimeout rm)
               (rm_tfExecLogPath rm) st (rm_cancelled rm) (rm_loadErr rm).
Definition set_cancelled (b : bool) (rm : rootModule) : rootModule :=
  mkRootModule (rm_path rm) (rm_tfExecPath rm) (rm_tfExecTimeout rm)
               (rm_tfExecLogPath rm) (rm_state rm) b (rm_loadErr rm).
Definition set_loadErr (e : option error) (rm : rootModule) : rootModule :=
  mkRootModule (rm_path rm) (rm_tfExecPath rm) (rm_tfExecTimeout rm)
               (rm_tfExecLogPath rm) (rm_state rm) (rm_cancelled rm) e.
Definition set_tfExecPath (p : string) (rm : rootModule) : rootModule :=
  mkRootModule (rm_path rm) p (rm_tfExecTimeout rm)
               (rm_tfExecLogPath rm) (rm_state rm) (rm_cancelled rm)
               (rm_loadErr rm).
Definition set_tfExecTimeout (t : Z) (rm : rootModule) : rootModule :=
  mkRootModule (rm_path rm) (rm_tfExecPath rm) t
               (rm_tfExecLogPath rm) (rm_state rm) (rm_cancelled rm)
               (rm_loadErr rm).
Definition set_tfExecLogPath (p : string) (rm : rootModule) : rootModule :=
  mkRootModule (rm_path rm) (rm_tfExecPath rm) (rm_tfExecTimeout rm)
               p (rm_state rm) (rm_cancelled rm) (rm_loadErr rm).

(** Modelled from the spec: [pathEquals] (not part of the sources) decides
    whether a root is registered at exactly the given path. *)
Definition pathEquals (path1 path2 : string) : bool := String.eqb path1 path2.

(** Modelled from the spec: [newRootModule(fs, dir)] (not part of the
    sources) allocates a root entity for [dir] with nothing discovered yet. *)
Definition newRootModule (dir : string) : M loc :=
  fun w =>
    (length (heap w),
     with_heap
       (heap w ++
        [mkRootModule dir EmptyString 0 EmptyString emptyState false None])
       w).

(** Modelled from the spec: the accessors of a root entity (not part of the
    sources) read its path and its cached state. *)
Definition Path (rm : rootModule) : string := rm_path rm.

Definition WasInitialized (rm : rootModule) : bool * option error :=
  (st_initialized (rm_state rm), st_initErr (rm_state rm)).

Definition ReferencesModulePath (rm : rootModule) (path : string) : bool :=
  existsb (fun m => pathEquals m path)
          (st_referencedModulePaths (rm_state rm)).

Definition MergedSchema (rm : rootModule) : option BodySchema * option error :=
  (st_mergedSchema (rm_state rm), st_schemaErr (rm_state rm)).

(** Modelled from the spec: the operations of a root entity that change it
    (not part of the sources).  Cache discovery and loading replace the cached
    state by what the outside world answers and report the error of the
    attempt; cancelling signals the cancellation handle; [setLoadErr] records
    the error of an asynchronous load. *)
Definition rm_discoverCaches (ctx : context) (dir : string) (rm : loc)
  : M (option error) :=
  out ← gets (fun w => discoverCachesOutcome (env w) dir (deref w rm));
  update rm (set_state out.1);;
  mret out.2.

Definition rm_load (ctx : context) (rm : loc) : M (option error) :=
  out ← gets (fun w => loadOutcome (env w) ctx (deref w rm));
  update rm (set_state out.1);;
  mret out.2.

Definition rm_ExecuteTerraformInit (ctx : context) (rm : loc)
  : M (option error) :=
  out ← gets (fun w => initOutcome (env w) ctx (deref w rm));
  modify (with_env out.1.1);;
  update rm (set_state out.1.2);;
  mret out.2.

Definition rm_UpdateProviderSchemaCache (ctx : context) (rm : loc)
  : M (option error) :=
  out ← gets (fun w => schemaCacheOutcome (env w) ctx (deref w rm));
  update rm (set_state out.1);;
  mret out.2.

Definition rm_setLoadErr (rm : loc) (err : option error) : M unit :=
  update rm (set_loadErr err).

Definition rm_CancelLoading (rm : loc) : M unit :=
  emit (EvCancelLoading rm);;
  update rm (set_cancelled true).

(** ** The worker pool, as the manager uses it *)

Definition with_rms (l : list loc) (m : rootModuleManager) : rootModuleManager :=
  mkManager l (syncLoading m) (pool m)
            (tfExecPath m) (tfExecTimeout m) (tfExecLogPath m).
Definition with_pool (p : workerPool) (m : rootModuleManager) : rootModuleManager :=
  mkManager (rms m) (syncLoading m) p
            (tfExecPath m) (tfExecTimeout m) (tfExecLogPath m).
Definition with_tfExecPath (s : string) (m : rootModuleManager) : rootModuleManager :=
  mkManager (rms m) (syncLoading m) (pool m)
            s (tfExecTimeout m) (tfExecLogPath m).
Definition with_tfExecTimeout (t : Z) (m : rootModuleManager) : rootModuleManager :=
  mkManager (rms m) (syncLoading m) (pool m)
            (tfExecPath m) t (tfExecLogPath m).
Definition with_tfExecLogPath (s : string) (m : rootModuleManager) : rootModuleManager :=
  mkManager (rms m) (syncLoading m) (pool m)
            (tfExecPath m) (tfExecTimeout m) s.

(** Modelled from the spec: [Submit] enqueues a task, [Stop] drains the
    queue and lets nothing start afterwards. *)
Definition workerPool_Submit (rm : loc) : M unit :=
  emit (EvSubmit rm);;
  modify (fun w =>
    with_rmm (with_pool (mkPool (waitingQueue (pool (rmm w)) ++ [rm])
                                (stopped (pool (rmm w)))) (rmm w)) w).

Definition workerPool_Stop : M unit :=
  emit EvPoolStop;;
  modify (fun w => with_rmm (with_pool (mkPool [] true) (rmm w)) w).

(** The task that [AddAndStartLoadingRootModule] submits:
    [err := rm.load(context.Background()); rm.setLoadErr(err)]. *)
Definition loadTask (rm : loc) : M unit :=
  err ← rm_load Background rm;
  rm_setLoadErr rm err.

(** A worker takes the [i]-th waiting task and runs it to its end.  The pool
    has several workers, so a task need not wait for the end of the tasks
    queued before it; how a running load interleaves with other calls is not
    modelled. *)
Definition workerPool_run (i : nat) : M unit :=
  p ← gets (fun w => pool (rmm w));
  match waitingQueue p !! i with
  | Some rm =>
      if stopped p then mret tt
      else
        modify (fun w =>
          with_rmm (with_pool (mkPool (delete i (waitingQueue p)) false)
                              (rmm w)) w);;
        loadTask rm
  | None => mret tt
  end.

(** ** The manager's methods *)

(** [newRootModuleManager]: no roots, asynchronous loading, a fresh pool and
    no pinned toolchain. *)
Definition newRootModuleManager (e : Env) : world :=
  mkWorld []
    (mkManager [] false (mkPool [] false) EmptyString 0 EmptyString) e [].

Definition defaultRootModuleFactory (ctx : context) (dir : string)
  : M (loc * option error) :=
  rm ← newRootModule dir;
  p ← gets (fun w => tfExecPath (rmm w));
  update rm (set_tfExecPath p);;
  t ← gets (fun w => tfExecTimeout (rmm w));
  update rm (set_tfExecTimeout t);;
  lp ← gets (fun w => tfExecLogPath (rmm w));
  update rm (set_tfExecLogPath lp);;
  err ← rm_discoverCaches ctx dir rm;
  mret (rm, err).

Definition SetTerraformExecPath (path : string) : M unit :=
  modify (fun w => with_rmm (with_tfExecPath path (rmm w)) w).

Definition SetTerraformExecLogPath (logPath : string) : M unit :=
  modify (fun w => with_rmm (with_tfExecLogPath logPath (rmm w)) w).

Definition SetTerraformExecTimeout (timeout : Z) : M unit :=
  modify (fun w => with_rmm (with_tfExecTimeout timeout (rmm w)) w).

(** The loop returns the first root whose path equals [dir]. *)
Definition rootModuleByPath (w : world) (dir : string) : option loc :=
  List.find (fun rm => pathEquals (Path (deref w rm)) dir) (rms (rmm w)).

Definition AddAndStartLoadingRootModule (ctx : context) (dir : string)
  : M (option loc * option error) :=
  let dir := Clean dir in
  found ← gets (fun w => rootModuleByPath w dir);
  match found with
  | Some _ => mret (None, Some (ErrAlreadyAdded dir))
  | None =>
      '(rm, err) ← defaultRootModuleFactory Background dir;
      match err with
      | Some e => mret (None, Some e)
      | None =>
          modify (fun w => with_rmm (with_rms (rms (rmm w) ++ [rm]) (rmm w)) w);;
          sync ← gets (fun w => syncLoading (rmm w));
          if (sync : bool) then
            emit (LogSyncLoading dir);;
            lerr ← rm_load ctx rm;
            mret (Some rm, lerr)
          else
            emit (LogAsyncLoading dir);;
            workerPool_Submit rm;;
            mret (Some rm, None)
      end
  end.

(** The two loops of [trimLockFilePath] return at the first suffix that
    matches. *)
Definition trimLockFilePath (filePath : string) : string :=
  let pluginLockFileSuffixes := pluginLockFilePaths PathSeparator in
  match List.find (fun s => GoStrings.HasSuffix filePath s)
                  pluginLockFileSuffixes with
  | Some s => GoStrings.TrimSuffix filePath s
  | None =>
      let moduleManifestSuffix := moduleManifestFilePath PathSeparator in
      if GoStrings.HasSuffix filePath moduleManifestSuffix
      then GoStrings.TrimSuffix filePath moduleManifestSuffix
      else filePath
  end.

Definition RootModuleCandidatesByPath (w : world) (path : string) : list loc :=
  let path := Clean path in
  let candidates := [] in
  let found := rootModuleByPath w path in
  let candidates :=
    match found with
    | Some rm =>
        let '(inited, _) := WasInitialized (deref w rm) in
        if inited then candidates ++ [rm] else candidates
    | None => candidates
    end in
  let candidates :=
    match found with
    | Some _ => candidates
    | None =>
        let dir := trimLockFilePath path in
        match rootModuleByPath w dir with
        | Some rm =>
            let '(inited, _) := WasInitialized (deref w rm) in
            if inited then candidates ++ [rm] else candidates
        | None => candidates
        end
    end in
  fold_left
    (fun candidates rm =>
       if ReferencesModulePath (deref w rm) path
       then candidates ++ [rm] else candidates)
    (rms (rmm w)) candidates.

Definition RootModuleByPath (w : world) (path : string)
  : option loc * option error :=
  let path := Clean path in
  match rootModuleByPath w path with
  | Some rm => (Some rm, None)
  | None =>
      let dir := trimLockFilePath path in
      match rootModuleByPath w dir with
      | Some rm => (Some rm, None)
      | None => (None, Some (RootModuleNotFoundErr path))
      end
  end.

Definition InitAndUpdateRootModule (ctx : context) (dir : string)
  : M (option loc * option error) :=
  '(rm, err) ← gets (fun w => RootModuleByPath w dir);
  match err, rm with
  | Some e, _ => mret (None, Some (ErrFailedToGetRootModule e))
  | None, Some rm =>
      ierr ← rm_ExecuteTerraformInit ctx rm;
      match ierr with
      | Some e => mret (None, Some (ErrFailedToInit e))
      | None =>
          rm_discoverCaches ctx dir rm;;
          serr ← rm_UpdateProviderSchemaCache ctx rm;
          mret (Some rm, serr)
      end
  | None, None =>
      (* not reached: RootModuleByPath has a root or an error *)
      mret (None, None)
  end.

(** The loop of [SchemaForPath]; [Some] is a [return] from inside the loop. *)
Fixpoint schemaLoop (path : string) (candidates : list loc)
  : M (option (option BodySchema * option error)) :=
  match candidates with
  | [] => mret (M := M) None
  | rm :: rest =>
      '(schema, err) ← gets (fun w => MergedSchema (deref w rm));
      match err with
      | Some e =>
          p ← gets (fun w => Path (deref w rm));
          emit (LogMergeFailed p e);;
          schemaLoop path rest
      | None =>
          match schema with
          | Some s =>
              p ← gets (fun w => Path (deref w rm));
              emit (LogFoundSchema path p);;
              mret (Some (Some s, None))
          | None => schemaLoop path rest
          end
      end
  end.

Definition SchemaForPath (path : string) : M (option BodySchema * option error) :=
  candidates ← gets (fun w => RootModuleCandidatesByPath w path);
  r ← schemaLoop path candidates;
  match r with
  | Some res => mret res
  | None =>
      '(rm, err) ← gets (fun w => RootModuleByPath w path);
      match err, rm with
      | Some e, _ => mret (None, Some e)
      | None, Some rm => gets (fun w => MergedSchema (deref w rm))
      | None, None =>
          (* not reached: RootModuleByPath has a root or an error *)
          gets (fun w => MergedSchema zeroRootModule)
      end
  end.

Definition CancelLoading : M unit :=
  roots ← gets (fun w => rms (rmm w));
  forM_ roots (fun rm =>
    p ← gets (fun w => Path (deref w rm));
    emit (LogCancelling p);;
    rm_CancelLoading rm;;
    p' ← gets (fun w => Path (deref w rm));
    emit (LogCancelled p'));;
  workerPool_Stop.

(** ** Runs of the program *)

Definition result {A : Type} (m : M A) (w : world) : A := (m w).1.
Definition after {A : Type} (m : M A) (w : world) : world := (m w).2.

(** One step of the program: a call of one of the manager's methods that
    change the state, a worker of the pool running a task, a line written to
    the log (all that the other methods do to the state), or a change of the
    outside world. *)
Inductive step : world -> world -> Prop :=
| step_Add (ctx : context) (dir : string) (w : world) :
    step w (after (AddAndStartLoadingRootModule ctx dir) w)
| step_SchemaForPath (path : string) (w : world) :
    step w (after (SchemaForPath path) w)
| step_CancelLoading (w : world) :
    step w (after CancelLoading w)
| step_SetTerraformExecPath (path : string) (w : world) :
    step w (after (SetTerraformExecPath path) w)
| step_SetTerraformExecLogPath (logPath : string) (w : world) :
    step w (after (SetTerraformExecLogPath logPath) w)
| step_SetTerraformExecTimeout (timeout : Z) (w : world) :
    step w (after (SetTerraformExecTimeout timeout) w)
| step_InitAndUpdate (ctx : context) (dir : string) (w : world) :
    step w (after (InitAndUpdateRootModule ctx dir) w)
| step_worker (i : nat) (w : world) :
    step w (after (workerPool_run i) w)
| step_log (e : event) (w : world) :
    step w (after (emit e) w)
| step_env (e : Env) (w : world) :
    step w (with_env e w).

(** Any number of steps. *)
Definition steps : world -> world -> Prop := rtc step.

(** The registry invariant: the registered pointers and the queued tasks
    point into the heap, and no two registered roots have the same path. *)
Definition registered_paths (w : world) : list string :=
  map (fun rm => Path (deref w rm)) (rms (rmm w)).

Record wf (w : world) : Prop := mkWf {
  wf_rms : Forall (fun rm => rm < length (heap w)) (rms (rmm w));
  wf_queue : Forall (fun rm => rm < length (heap w)) (waitingQueue (pool (rmm w)));
  wf_paths : NoDup (registered_paths w)
}.

(** The roots registered at a path. *)
Definition rootsAt (w : world) (path : string) : list loc :=
  filter (fun rm => Path (deref w rm) = path) (rms (rmm w)).

(** ** The vocabulary of the statements *)

(** The root entity the factory allocates for [dir] in [w], before and
    after cache discovery, and what cache discovery answers for it. *)
Definition freshEntity (w : world) (dir : string) : rootModule :=
  mkRootModule dir (tfExecPath (rmm w)) (tfExecTimeout (rmm w))
    (tfExecLogPath (rmm w)) emptyState false None.

Definition discovery (w : world) (dir : string) : rmState * option error :=
  discoverCachesOutcome (env w) dir (freshEntity w dir).

Definition newEntity (w : world) (dir : string) : rootModule :=
  mkRootModule dir (tfExecPath (rmm w)) (tfExecTimeout (rmm w))
    (tfExecLogPath (rmm w)) (discovery w dir).1 false None.

(** Two states of an entity with the same seed: the path and the toolchain
    settings the factory gave it. *)
Definition same_seed (rm rm' : rootModule) : Prop :=
  rm_path rm' = rm_path rm /\
  rm_tfExecPath rm' = rm_tfExecPath rm /\
  rm_tfExecTimeout rm' = rm_tfExecTimeout rm /\
  rm_tfExecLogPath rm' = rm_tfExecLogPath rm.

(** What every step keeps: the entities keep their seed, the registry only
    grows at its end, and the registry invariant stays. *)
Record evolves (w w' : world) : Prop := mkEvolves {
  ev_heap : forall l rm, heap w !! l = Some rm ->
            exists rm', heap w' !! l = Some rm' /\ same_seed rm rm';
  ev_rms : rms (rmm w) `prefix_of` rms (rmm w');
  ev_wf : wf w -> wf w'
}.

(** A method that keeps all this, from whatever state it is called. *)
Definition mono {A : Type} (m : M A) : Prop :=
  forall w, evolves w (after m w).

(** The suffixes [trimLockFilePath] tries, in the order it tries them. *)
Definition recognizedSuffixes : list string :=
  pluginLockFilePaths PathSeparator ++ [moduleManifestFilePath PathSeparator].

(** The roots of the registry that reference [path], in registry order. *)
Definition referencingRoots (w : world) (path : string) : list loc :=
  filter (fun rm => path ∈ st_referencedModulePaths (rm_state (deref w rm)))
         (rms (rmm w)).

(** The direct match of [RootModuleByPath], kept when it was initialised. *)
Definition initializedDirectMatch (w : world) (path : string) : list loc :=
  match RootModuleByPath w path with
  | (Some rm, _) =>
      if st_initialized (rm_state (deref w rm)) then [rm] else []
  | (None, _) => []
  end.

(** A candidate yields a schema when [MergedSchema] returns one and no error. *)
Definition yieldsSchema (rm : rootModule) : bool :=
  match MergedSchema rm with
  | (Some _, None) => true
  | _ => false
  end.

(** The log lines for the candidates whose schema computation errors. *)
Definition mergeFailures (w : world) (l : list loc) : list event :=
  flat_map
    (fun rm =>
       match (MergedSchema (deref w rm)).2 with
       | Some e => [LogMergeFailed (Path (deref w rm)) e]
       | None => []
       end) l.

(** The heap after the cancellation handle of every root in [roots] has been
    signalled, and what the loop of [CancelLoading] logs and signals. *)
Definition cancelAll (h : list rootModule) (roots : list loc) : list rootModule :=
  fold_left (fun h rm => alter (set_cancelled true) rm h) roots h.

Definition cancelEvents (w : world) (roots : list loc) : list event :=
  flat_map
    (fun rm => [LogCancelling (Path (deref w rm));
                EvCancelLoading rm;
                LogCancelled (Path (deref w rm))]) roots.

(** The signals sent to root modules and to the pool, among all events. *)
Definition signals (t : list event) : list event :=
  List.filter
    (fun e => match e with
              | EvCancelLoading _ | EvPoolStop => true
              | _ => false
              end) t.

(** The toolchain settings of an entity are those of the manager. *)
Definition seeded_with (x : rootModule) (m : rootModuleManager) : Prop :=
  rm_tfExecPath x = tfExecPath m /\
  rm_tfExecTimeout x = tfExecTimeout m /\
  rm_tfExecLogPath x = tfExecLogPath m.

(** ** Basic facts *)

(** *** Suffixes *)

Lemma length_append (a b : string) :
  String.length (a +:+ b) = String.length a + String.length b.
Proof. induction a as [|c a IH]; simpl; [reflexivity | now rewrite IH]. Qed.

Lemma substring_all (s : string) :
  String.substring 0 (String.length s) s = s.
Proof. induction s as [|c s IH]; simpl; [reflexivity | now rewrite IH]. Qed.

Lemma substring_skip (a b : string) (n : nat) :
  String.substring (String.length a) n (a +:+ b) = String.substring 0 n b.
Proof. induction a as [|c a IH]; simpl; [reflexivity | exact IH]. Qed.

Lemma substring_take (a b : string) :
  String.substring 0 (String.length a) (a +:+ b) = a.
Proof.
  induction a as [|c a IH]; simpl.
  - destruct b; reflexivity.
  - now rewrite IH.
Qed.

Lemma substring_split (s : string) (k : nat) :
  k <= String.length s ->
  String.substring 0 k s +:+ String.substring k (String.length s - k) s = s.
Proof.
  revert k. induction s as [|c s IH]; intros [|k] Hk; simpl in *;
    try reflexivity; try lia.
  - now rewrite substring_all.
  - change (String c (String.substring 0 k s +:+
                     String.substring k (String.length s - k) s) = String c s).
    rewrite IH by lia. reflexivity.
Qed.

Lemma HasSuffix_append (pre suffix : string) :
  GoStrings.HasSuffix (pre +:+ suffix) suffix = true.
Proof.
  unfold GoStrings.HasSuffix. rewrite length_append.
  replace (String.length pre + String.length suffix - String.length suffix)
    with (String.length pre) by lia.
  rewrite substring_skip, substring_all, String.eqb_refl.
  rewrite andb_true_r. apply Nat.leb_le. lia.
Qed.

Lemma HasSuffix_inv (s suffix : string) :
  GoStrings.HasSuffix s suffix = true ->
  s = String.substring 0 (String.length s - String.length suffix) s +:+ suffix.
Proof.
  unfold GoStrings.HasSuffix. intros H. apply andb_true_iff in H as [Hle Heq].
  apply Nat.leb_le in Hle. apply String.eqb_eq in Heq.
  set (k := String.length s - String.length suffix).
  transitivity (String.substring 0 k s +:+
                String.substring k (String.length s - k) s).
  - symmetry. apply substring_split. unfold k. lia.
  - f_equal. replace (String.length s - k) with (String.length suffix)
      by (unfold k; lia).
    exact Heq.
Qed.

Lemma HasSuffix_iff (s suffix : string) :
  GoStrings.HasSuffix s suffix = true <-> exists pre, s = pre +:+ suffix.
Proof.
  split.
  - intros H. eexists. apply HasSuffix_inv, H.
  - intros [pre ->]. apply HasSuffix_append.
Qed.

Lemma TrimSuffix_append (pre suffix : string) :
  GoStrings.TrimSuffix (pre +:+ suffix) suffix = pre.
Proof.
  unfold GoStrings.TrimSuffix. rewrite HasSuffix_append, length_append.
  replace (String.length pre + String.length suffix - String.length suffix)
    with (String.length pre) by lia.
  apply substring_take.
Qed.

Lemma TrimSuffix_spec (s suffix : string) :
  GoStrings.HasSuffix s suffix = true -> GoStrings.TrimSuffix s suffix +:+ suffix = s.
Proof.
  intros H. unfold GoStrings.TrimSuffix. rewrite H. symmetry. now apply HasSuffix_inv.
Qed.

(** *** The heap and the monad *)

Ltac run :=
  repeat (unfold result, after, mbind, M_bind, mret, M_ret, gets, modify, emit,
          update, with_heap, with_rmm, with_env, with_trace in *; cbn in *).

Lemma alter_last {A : Type} (f : A -> A) (h : list A) (x : A) :
  alter f (length h) (h ++ [x]) = h ++ [f x].
Proof.
  replace (length h) with (length h + 0) by lia.
  rewrite alter_app_r. reflexivity.
Qed.

Lemma lookup_alloc {A : Type} (h : list A) (x : A) :
  (h ++ [x]) !! length h = Some x.
Proof.
  rewrite lookup_app_r by lia. now rewrite Nat.sub_diag.
Qed.

Lemma defaultRootModuleFactory_eq (ctx : context) (dir : string) (w : world) :
  defaultRootModuleFactory ctx dir w =
  ((length (heap w), (discovery w dir).2),
   with_heap (heap w ++ [newEntity w dir]) w).
Proof.
  unfold defaultRootModuleFactory, rm_discoverCaches, newRootModule. run.
  rewrite !alter_last. unfold deref. cbn. rewrite lookup_alloc. reflexivity.
Qed.

Lemma rootModuleByPath_heap (w w' : world) (dir : string) :
  rms (rmm w') = rms (rmm w) ->
  (forall rm, rm ∈ rms (rmm w) -> Path (deref w' rm) = Path (deref w rm)) ->
  rootModuleByPath w' dir = rootModuleByPath w dir.
Proof.
  unfold rootModuleByPath. intros -> H.
  induction (rms (rmm w)) as [|rm l IH]; [reflexivity|].
  simpl. rewrite H by left. rewrite IH; [reflexivity|].
  intros rm' Hin. apply H. now right.
Qed.

Lemma rootModuleByPath_Some (w : world) (dir : string) (rm : loc) :
  rootModuleByPath w dir = Some rm ->
  rm ∈ rms (rmm w) /\ Path (deref w rm) = dir.
Proof.
  unfold rootModuleByPath. intros H. apply find_some in H as [Hin Heq].
  split; [now apply list_elem_of_In|].
  now apply String.eqb_eq in Heq.
Qed.

Lemma rootModuleByPath_None (w : world) (dir : string) :
  rootModuleByPath w dir = None <-> dir ∉ registered_paths w.
Proof.
  unfold rootModuleByPath, registered_paths. split.
  - intros H Hin. apply list_elem_of_fmap in Hin as [rm [-> Hrm]].
    apply list_elem_of_In in Hrm.
    pose proof (find_none _ _ H _ Hrm) as Hf. simpl in Hf.
    unfold pathEquals in Hf. now rewrite String.eqb_refl in Hf.
  - intros Hnin. destruct (List.find _ _) as [rm|] eqn:E; [|reflexivity].
    apply find_some in E as [Hin Heq]. exfalso. apply Hnin.
    apply String.eqb_eq in Heq. rewrite <- Heq.
    apply list_elem_of_fmap. exists rm. split; [reflexivity|].
    now apply list_elem_of_In.
Qed.

(** With pairwise different registered paths the loop finds the one root
    registered at a path, wherever it stands in the list. *)
Lemma rootModuleByPath_unique (w : world) (dir : string) (rm : loc) :
  NoDup (registered_paths w) ->
  rm ∈ rms (rmm w) -> Path (deref w rm) = dir ->
  rootModuleByPath w dir = Some rm.
Proof.
  unfold rootModuleByPath, registered_paths.
  induction (rms (rmm w)) as [|x l IH]; intros Hnd Hin Hp.
  - inversion Hin.
  - simpl. apply NoDup_cons in Hnd as [Hx Hnd].
    unfold pathEquals at 1. destruct (String.eqb_spec (Path (deref w x)) dir) as [E|E].
    + apply elem_of_cons in Hin as [->|Hin]; [reflexivity|].
      exfalso. apply Hx. rewrite E, <- Hp.
      apply list_elem_of_fmap. now exists rm.
    + apply elem_of_cons in Hin as [->|Hin]; [contradiction|].
      now apply IH.
Qed.

Lemma rootsAt_none_aux (l : list loc) (w : world) (dir : string) :
  dir ∉ map (fun rm => Path (deref w rm)) l ->
  filter (fun rm => Path (deref w rm) = dir) l = [].
Proof.
  induction l as [|x l IH]; intros Hnin; [reflexivity|].
  apply not_elem_of_cons in Hnin as [Hx Hl].
  rewrite filter_cons_False by (intros E; now apply Hx).
  now apply IH.
Qed.

Lemma rootsAt_unique (w : world) (dir : string) (rm : loc) :
  NoDup (registered_paths w) ->
  rm ∈ rms (rmm w) -> Path (deref w rm) = dir ->
  rootsAt w dir = [rm].
Proof.
  unfold rootsAt, registered_paths.
  induction (rms (rmm w)) as [|x l IH]; intros Hnd Hin Hp.
  - inversion Hin.
  - apply NoDup_cons in Hnd as [Hx Hnd].
    destruct (decide (Path (deref w x) = dir)) as [E|E].
    + rewrite filter_cons_True by exact E.
      assert (rm = x) as ->.
      { apply elem_of_cons in Hin as [->|Hin]; [reflexivity|].
        exfalso. apply Hx. rewrite E, <- Hp.
        apply list_elem_of_fmap. now exists rm. }
      f_equal. apply (rootsAt_none_aux l). now rewrite <- E.
    + rewrite filter_cons_False by exact E.
      apply elem_of_cons in Hin as [->|Hin]; [contradiction|].
      now apply IH.
Qed.

(** *** [AddAndStartLoadingRootModule], case by case *)

Lemma Add_registered (ctx : context) (dir : string) (w : world) (rm : loc) :
  rootModuleByPath w (Clean dir) = Some rm ->
  AddAndStartLoadingRootModule ctx dir w =
  ((None, Some (ErrAlreadyAdded (Clean dir))), w).
Proof.
  intros H. unfold AddAndStartLoadingRootModule. run. now rewrite H.
Qed.

Lemma Add_factory_error (ctx : context) (dir : string) (w : world) (e : error) :
  rootModuleByPath w (Clean dir) = None ->
  (discovery w (Clean dir)).2 = Some e ->
  AddAndStartLoadingRootModule ctx dir w =
  ((None, Some e), with_heap (heap w ++ [newEntity w (Clean dir)]) w).
Proof.
  intros H He. unfold AddAndStartLoadingRootModule. run. rewrite H.
  rewrite defaultRootModuleFactory_eq, He. reflexivity.
Qed.

Lemma Add_sync (ctx : context) (dir : string) (w : world) :
  rootModuleByPath w (Clean dir) = None ->
  (discovery w (Clean dir)).2 = None ->
  syncLoading (rmm w) = true ->
  AddAndStartLoadingRootModule ctx dir w =
  ((Some (length (heap w)),
    (loadOutcome (env w) ctx (newEntity w (Clean dir))).2),
   mkWorld
     (heap w ++
      [set_state (loadOutcome (env w) ctx (newEntity w (Clean dir))).1
                 (newEntity w (Clean dir))])
     (with_rms (rms (rmm w) ++ [length (heap w)]) (rmm w))
     (env w)
     (trace w ++ [LogSyncLoading (Clean dir)])).
Proof.
  intros H He Hs. unfold AddAndStartLoadingRootModule. run. rewrite H.
  rewrite defaultRootModuleFactory_eq, He. run. rewrite Hs.
  unfold rm_load, deref. run. rewrite lookup_alloc, alter_last. reflexivity.
Qed.

Lemma Add_async (ctx : context) (dir : string) (w : world) :
  rootModuleByPath w (Clean dir) = None ->
  (discovery w (Clean dir)).2 = None ->
  syncLoading (rmm w) = false ->
  AddAndStartLoadingRootModule ctx dir w =
  ((Some (length (heap w)), None),
   mkWorld
     (heap w ++ [newEntity w (Clean dir)])
     (with_pool
        (mkPool (waitingQueue (pool (rmm w)) ++ [length (heap w)])
                (stopped (pool (rmm w))))
        (with_rms (rms (rmm w) ++ [length (heap w)]) (rmm w)))
     (env w)
     (trace w ++ [LogAsyncLoading (Clean dir); EvSubmit (length (heap w))])).
Proof.
  intros H He Hs. unfold AddAndStartLoadingRootModule. run. rewrite H.
  rewrite defaultRootModuleFactory_eq, He. run. rewrite Hs.
  unfold workerPool_Submit. run. rewrite <- app_assoc. reflexivity.
Qed.

(** *** Every step keeps the seeds, the registry order and the invariant *)

Lemma same_seed_refl (rm : rootModule) : same_seed rm rm.
Proof. repeat split. Qed.

Lemma same_seed_trans (a b c : rootModule) :
  same_seed a b -> same_seed b c -> same_seed a c.
Proof.
  intros (?&?&?&?) (?&?&?&?). repeat split; congruence.
Qed.

Lemma evolves_refl (w : world) : evolves w w.
Proof.
  split; [|reflexivity|tauto].
  intros l rm H. exists rm. split; [exact H | apply same_seed_refl].
Qed.

Lemma evolves_trans (a b c : world) : evolves a b -> evolves b c -> evolves a c.
Proof.
  intros [H1 P1 W1] [H2 P2 W2]. split.
  - intros l rm H. destruct (H1 _ _ H) as (rm' & H' & S1).
    destruct (H2 _ _ H') as (rm'' & H'' & S2).
    exists rm''. split; [exact H'' | eapply same_seed_trans; eassumption].
  - etransitivity; eassumption.
  - tauto.
Qed.

Lemma deref_lookup (w : world) (l : loc) (rm : rootModule) :
  heap w !! l = Some rm -> deref w l = rm.
Proof. unfold deref. now intros ->. Qed.

Lemma lookup_valid (w : world) (l : loc) :
  l < length (heap w) -> heap w !! l = Some (deref w l).
Proof.
  intros H. unfold deref. destruct (heap w !! l) eqn:E; [reflexivity|].
  apply lookup_ge_None in E. lia.
Qed.

(** Worlds with the same registry and the same paths behind every pointer. *)
Lemma wf_transport (w w' : world) :
  rms (rmm w') = rms (rmm w) ->
  waitingQueue (pool (rmm w')) ⊆ waitingQueue (pool (rmm w)) ->
  length (heap w) <= length (heap w') ->
  (forall l, l < length (heap w) -> Path (deref w' l) = Path (deref w l)) ->
  wf w -> wf w'.
Proof.
  intros Hr Hq Hl Hp [V Q N]. split.
  - rewrite Hr. eapply Forall_impl; [exact V|]. simpl. lia.
  - apply Forall_forall. intros x Hx. apply Hq in Hx.
    rewrite Forall_forall in Q. specialize (Q _ Hx). simpl in Q. lia.
  - unfold registered_paths in *. rewrite Hr.
    replace (map (fun rm => Path (deref w' rm)) (rms (rmm w)))
      with (map (fun rm => Path (deref w rm)) (rms (rmm w))); [exact N|].
    apply map_ext_in. intros a Ha. symmetry. apply Hp.
    rewrite Forall_forall in V. apply V. now apply list_elem_of_In.
Qed.

(** Changing one entity without touching its seed. *)
Lemma evolves_update (l : loc) (f : rootModule -> rootModule) (w : world) :
  (forall rm, same_seed rm (f rm)) ->
  evolves w (after (update l f) w).
Proof.
  intros Hf. run. split; simpl.
  - intros k rm H. destruct (decide (l = k)) as [->|Hne].
    + exists (f rm). split; [|apply Hf].
      rewrite list_lookup_alter_eq, H. reflexivity.
    + exists rm. split; [|apply same_seed_refl].
      rewrite list_lookup_alter_ne by exact Hne. exact H.
  - reflexivity.
  - apply wf_transport; simpl; try reflexivity.
    + now rewrite length_alter.
    + intros k Hk. unfold deref. simpl.
      destruct (decide (l = k)) as [->|Hne].
      * rewrite list_lookup_alter_eq, (lookup_valid w k Hk). simpl.
        apply Hf.
      * now rewrite list_lookup_alter_ne.
Qed.

Lemma evolves_emit (e : event) (w : world) : evolves w (after (emit e) w).
Proof.
  run. split; simpl.
  - intros l rm H. exists rm. split; [exact H | apply same_seed_refl].
  - reflexivity.
  - intros [V Q N]. split; assumption.
Qed.

(** A change of the manager that keeps the registry and adds no task. *)
Lemma evolves_rmm (m : rootModuleManager) (w : world) :
  rms m = rms (rmm w) ->
  waitingQueue (pool m) ⊆ waitingQueue (pool (rmm w)) ->
  evolves w (with_rmm m w).
Proof.
  intros Hr Hq. split; simpl.
  - intros l rm H. exists rm. split; [exact H | apply same_seed_refl].
  - now rewrite Hr.
  - apply wf_transport; simpl; auto.
Qed.

Lemma evolves_env (e : Env) (w : world) : evolves w (with_env e w).
Proof.
  split; simpl.
  - intros l rm H. exists rm. split; [exact H | apply same_seed_refl].
  - reflexivity.
  - intros [V Q N]. split; assumption.
Qed.

Lemma after_bind {A B : Type} (m : M A) (f : A -> M B) (w : world) :
  after (m ≫= f) w = after (f (result m w)) (after m w).
Proof. unfold after, result, mbind, M_bind. now destruct (m w). Qed.

Lemma mono_ret {A : Type} (a : A) : mono (mret a).
Proof. intros w. apply evolves_refl. Qed.

Lemma mono_gets {A : Type} (f : world -> A) : mono (gets f).
Proof. intros w. apply evolves_refl. Qed.

Lemma mono_bind {A B : Type} (m : M A) (f : A -> M B) :
  mono m -> (forall a, mono (f a)) -> mono (m ≫= f).
Proof.
  intros Hm Hf w. rewrite after_bind.
  eapply evolves_trans; [apply Hm | apply Hf].
Qed.

Lemma mono_emit (e : event) : mono (emit e).
Proof. intros w. apply evolves_emit. Qed.

Lemma mono_update (l : loc) (f : rootModule -> rootModule) :
  (forall rm, same_seed rm (f rm)) -> mono (update l f).
Proof. intros Hf w. now apply evolves_update. Qed.

Lemma mono_forM_ {A : Type} (xs : list A) (body : A -> M unit) :
  (forall x, mono (body x)) -> mono (forM_ xs body).
Proof.
  intros Hb. induction xs as [|x xs IH]; simpl.
  - apply mono_ret.
  - apply mono_bind; [apply Hb | intros _; exact IH].
Qed.

Lemma mono_rm_load (ctx : context) (rm : loc) : mono (rm_load ctx rm).
Proof.
  unfold rm_load. apply mono_bind; [apply mono_gets|]. intros out.
  apply mono_bind; [|intros _; apply mono_ret].
  apply mono_update. intros r. repeat split.
Qed.

Lemma mono_rm_discoverCaches (ctx : context) (dir : string) (rm : loc) :
  mono (rm_discoverCaches ctx dir rm).
Proof.
  unfold rm_discoverCaches. apply mono_bind; [apply mono_gets|]. intros out.
  apply mono_bind; [|intros _; apply mono_ret].
  apply mono_update. intros r. repeat split.
Qed.

Lemma mono_rm_ExecuteTerraformInit (ctx : context) (rm : loc) :
  mono (rm_ExecuteTerraformInit ctx rm).
Proof.
  unfold rm_ExecuteTerraformInit. apply mono_bind; [apply mono_gets|].
  intros out. apply mono_bind; [intros w; apply evolves_env|]. intros _.
  apply mono_bind; [|intros _; apply mono_ret].
  apply mono_update. intros r. repeat split.
Qed.

Lemma mono_rm_UpdateProviderSchemaCache (ctx : context) (rm : loc) :
  mono (rm_UpdateProviderSchemaCache ctx rm).
Proof.
  unfold rm_UpdateProviderSchemaCache. apply mono_bind; [apply mono_gets|].
  intros out. apply mono_bind; [|intros _; apply mono_ret].
  apply mono_update. intros r. repeat split.
Qed.

Lemma mono_rm_setLoadErr (rm : loc) (err : option error) :
  mono (rm_setLoadErr rm err).
Proof. apply mono_update. intros r. repeat split. Qed.

Lemma mono_rm_CancelLoading (rm : loc) : mono (rm_CancelLoading rm).
Proof.
  unfold rm_CancelLoading. apply mono_bind; [apply mono_emit|]. intros _.
  apply mono_update. intros r. repeat split.
Qed.

Lemma mono_workerPool_Stop : mono workerPool_Stop.
Proof.
  unfold workerPool_Stop. apply mono_bind; [apply mono_emit|]. intros _ w.
  apply evolves_rmm; simpl; [reflexivity|]. apply list_subseteq_nil.
Qed.

Lemma mono_loadTask (rm : loc) : mono (loadTask rm).
Proof.
  unfold loadTask. apply mono_bind; [apply mono_rm_load|]. intros err.
  apply mono_rm_setLoadErr.
Qed.

Lemma mono_workerPool_run (i : nat) : mono (workerPool_run i).
Proof.
  intros w. unfold workerPool_run. rewrite after_bind.
  change (result (gets (fun w => pool (rmm w))) w) with (pool (rmm w)).
  change (after (gets (fun w => pool (rmm w))) w) with w.
  destruct (waitingQueue (pool (rmm w)) !! i) as [rm|] eqn:Eq;
    [|apply evolves_refl].
  destruct (stopped (pool (rmm w))); [apply evolves_refl|].
  rewrite after_bind. eapply evolves_trans; [|apply mono_loadTask].
  apply evolves_rmm; simpl; [reflexivity|].
  apply list_subseteq_delete.
Qed.

Lemma mono_schemaLoop (path : string) (candidates : list loc) :
  mono (schemaLoop path candidates).
Proof.
  induction candidates as [|rm rest IH]; simpl; [apply mono_ret|].
  apply mono_bind; [apply mono_gets|]. intros [schema [e|]].
  - apply mono_bind; [apply mono_gets|]. intros p.
    apply mono_bind; [apply mono_emit|]. intros _. exact IH.
  - destruct schema as [s|]; [|exact IH].
    apply mono_bind; [apply mono_gets|]. intros p.
    apply mono_bind; [apply mono_emit|]. intros _. apply mono_ret.
Qed.

Lemma mono_SchemaForPath (path : string) : mono (SchemaForPath path).
Proof.
  unfold SchemaForPath. apply mono_bind; [apply mono_gets|]. intros cs.
  apply mono_bind; [apply mono_schemaLoop|]. intros [res|]; [apply mono_ret|].
  apply mono_bind; [apply mono_gets|]. intros [[rm|] [e|]];
    first [apply mono_ret | apply mono_gets].
Qed.

Lemma mono_InitAndUpdateRootModule (ctx : context) (dir : string) :
  mono (InitAndUpdateRootModule ctx dir).
Proof.
  unfold InitAndUpdateRootModule. apply mono_bind; [apply mono_gets|].
  intros [[rm|] [e|]]; try apply mono_ret.
  apply mono_bind; [apply mono_rm_ExecuteTerraformInit|].
  intros [e|]; [apply mono_ret|].
  apply mono_bind; [apply mono_rm_discoverCaches|]. intros _.
  apply mono_bind; [apply mono_rm_UpdateProviderSchemaCache|]. intros serr.
  apply mono_ret.
Qed.

Lemma mono_CancelLoading : mono CancelLoading.
Proof.
  unfold CancelLoading. apply mono_bind; [apply mono_gets|]. intros roots.
  apply mono_bind; [|intros _; apply mono_workerPool_Stop].
  apply mono_forM_. intros rm.
  apply mono_bind; [apply mono_gets|]. intros p.
  apply mono_bind; [apply mono_emit|]. intros _.
  apply mono_bind; [apply mono_rm_CancelLoading|]. intros _.
  apply mono_bind; [apply mono_gets|]. intros p'. apply mono_emit.
Qed.

(** Allocation keeps what the old pointers refer to. *)
Lemma deref_alloc_old (w w' : world) (x : rootModule) (l : loc) :
  heap w' = heap w ++ [x] -> l < length (heap w) -> deref w' l = deref w l.
Proof.
  intros Hh Hl. unfold deref. rewrite Hh, lookup_app_l by exact Hl. reflexivity.
Qed.

Lemma deref_alloc_new (w w' : world) (x : rootModule) :
  heap w' = heap w ++ [x] -> deref w' (length (heap w)) = x.
Proof. intros Hh. unfold deref. now rewrite Hh, lookup_alloc. Qed.

Lemma evolves_alloc (w : world) (x : rootModule) :
  evolves w (with_heap (heap w ++ [x]) w).
Proof.
  split; simpl.
  - intros l rm H. exists rm. split; [|apply same_seed_refl].
    now apply lookup_app_l_Some.
  - reflexivity.
  - apply wf_transport; simpl; try reflexivity.
    + rewrite length_app. lia.
    + intros l Hl. f_equal. now apply (deref_alloc_old w _ x).
Qed.

(** Registering a freshly allocated root at a path nobody has. *)
Lemma evolves_register (w : world) (x : rootModule) (m : rootModuleManager)
      (t : list event) :
  rms m = rms (rmm w) ++ [length (heap w)] ->
  Path x ∉ registered_paths w ->
  waitingQueue (pool m) ⊆ waitingQueue (pool (rmm w)) ++ [length (heap w)] ->
  evolves w (mkWorld (heap w ++ [x]) m (env w) t).
Proof.
  intros Hr Hx Hq. split; simpl.
  - intros l rm H. exists rm. split; [|apply same_seed_refl].
    now apply lookup_app_l_Some.
  - rewrite Hr. now apply prefix_app_r.
  - intros [V Q N].
    set (w' := mkWorld (heap w ++ [x]) m (env w) t).
    assert (Hold : forall l, l ∈ rms (rmm w) -> deref w' l = deref w l).
    { intros l Hl. apply (deref_alloc_old w w' x); [reflexivity|].
      rewrite Forall_forall in V. now apply V. }
    split; simpl.
    + rewrite Hr, length_app. simpl. apply Forall_app. split.
      * eapply Forall_impl; [exact V|]. simpl. lia.
      * apply Forall_singleton. lia.
    + rewrite length_app. simpl. apply Forall_forall. intros l Hl.
      apply Hq in Hl. apply elem_of_app in Hl as [Hl|Hl].
      * rewrite Forall_forall in Q. specialize (Q _ Hl). simpl in Q. lia.
      * apply list_elem_of_singleton in Hl. lia.
    + unfold registered_paths. simpl. rewrite Hr, map_app. simpl.
      rewrite (deref_alloc_new w w' x) by reflexivity.
      replace (map (fun rm => Path (deref w' rm)) (rms (rmm w)))
        with (registered_paths w).
      * apply NoDup_app. split; [exact N|]. split.
        -- intros p Hp Hp'. apply list_elem_of_singleton in Hp'. now subst.
        -- apply NoDup_singleton.
      * unfold registered_paths. apply map_ext_in. intros a Ha.
        f_equal. symmetry. apply Hold. now apply list_elem_of_In.
Qed.

Lemma evolves_Add (ctx : context) (dir : string) (w : world) :
  evolves w (after (AddAndStartLoadingRootModule ctx dir) w).
Proof.
  unfold after.
  destruct (rootModuleByPath w (Clean dir)) as [rm|] eqn:Hf.
  { rewrite (Add_registered _ _ _ _ Hf). apply evolves_refl. }
  destruct (discovery w (Clean dir)).2 as [e|] eqn:He.
  { rewrite (Add_factory_error _ _ _ _ Hf He). apply evolves_alloc. }
  apply rootModuleByPath_None in Hf.
  destruct (syncLoading (rmm w)) eqn:Hs.
  - rewrite Add_sync by (try apply rootModuleByPath_None; assumption).
    apply evolves_register; simpl; auto.
    apply list_subseteq_app_l. reflexivity.
  - rewrite Add_async by (try apply rootModuleByPath_None; assumption).
    apply evolves_register; simpl; auto.
Qed.

Theorem step_evolves (w w' : world) : step w w' -> evolves w w'.
Proof.
  intros []; unfold SetTerraformExecPath, SetTerraformExecLogPath,
    SetTerraformExecTimeout.
  - apply evolves_Add.
  - apply mono_SchemaForPath.
  - apply mono_CancelLoading.
  - apply evolves_rmm; reflexivity.
  - apply evolves_rmm; reflexivity.
  - apply evolves_rmm; reflexivity.
  - apply mono_InitAndUpdateRootModule.
  - apply mono_workerPool_run.
  - apply mono_emit.
  - apply evolves_env.
Qed.

Theorem steps_evolves (w w' : world) : steps w w' -> evolves w w'.
Proof.
  induction 1 as [|a b c Hab _ IH]; [apply evolves_refl|].
  eapply evolves_trans; [apply step_evolves|]; eassumption.
Qed.

Lemma wf_new (e : Env) : wf (newRootModuleManager e).
Proof. split; simpl; constructor. Qed.

(** Every state the program can be in satisfies the registry invariant. *)
Lemma reachable_wf (e : Env) (w : world) :
  steps (newRootModuleManager e) w -> wf w.
Proof. intros H. apply (ev_wf _ _ (steps_evolves _ _ H)), wf_new. Qed.

(** X1: in every state the program reaches from a new manager, no two
    registered roots have the same path, and every registered pointer refers
    to a root module. *)
Theorem registered_paths_are_unique (e : Env) (w : world) :
  steps (newRootModuleManager e) w ->
  NoDup (registered_paths w) /\
  Forall (fun rm => rm < length (heap w)) (rms (rmm w)).
Proof. intros H. destruct (reachable_wf e w H) as [V _ N]. now split. Qed.

(** X2: the registry is append-only and the path of a root never changes:
    whatever the program does, the roots registered before are the first
    roots of the registry afterwards, in the same order and at the same
    paths. *)
Theorem registry_is_append_only (w w' : world) :
  steps w w' ->
  rms (rmm w) `prefix_of` rms (rmm w') /\
  forall rm x, heap w !! rm = Some x ->
    exists x', heap w' !! rm = Some x' /\ rm_path x' = rm_path x.
Proof.
  intros H. destruct (steps_evolves _ _ H) as [Hh Hp _]. split; [exact Hp|].
  intros rm x Hx. destruct (Hh _ _ Hx) as (x' & Hx' & Hs & _).
  now exists x'.
Qed.

(** A registration that returns a root has appended it, seeded with the
    cleaned path and the manager's current defaults. *)
Lemma Add_registers (ctx : context) (dir : string) (w : world) (rm : loc) :
  (result (AddAndStartLoadingRootModule ctx dir) w).1 = Some rm ->
  let w1 := after (AddAndStartLoadingRootModule ctx dir) w in
  rm = length (heap w) /\
  rootModuleByPath w (Clean dir) = None /\
  rms (rmm w1) = rms (rmm w) ++ [rm] /\
  exists x, heap w1 !! rm = Some x /\
            same_seed (newEntity w (Clean dir)) x.
Proof.
  unfold result, after.
  destruct (rootModuleByPath w (Clean dir)) as [r|] eqn:Hf.
  { rewrite (Add_registered _ _ _ _ Hf). discriminate. }
  destruct (discovery w (Clean dir)).2 as [e|] eqn:He.
  { rewrite (Add_factory_error _ _ _ _ Hf He). discriminate. }
  destruct (syncLoading (rmm w)) eqn:Hs.
  - rewrite (Add_sync _ _ _ Hf He Hs). simpl. intros [= <-].
    repeat split; try reflexivity.
    eexists. split; [apply lookup_alloc|]. repeat split.
  - rewrite (Add_async _ _ _ Hf He Hs). simpl. intros [= <-].
    repeat split; try reflexivity.
    eexists. split; [apply lookup_alloc|]. repeat split.
Qed.

(** A registered root stays registered, at the same path. *)
Lemma registered_persists (w w' : world) (rm : loc) (x : rootModule) :
  evolves w w' -> rm ∈ rms (rmm w) -> heap w !! rm = Some x ->
  rm ∈ rms (rmm w') /\
  exists x', heap w' !! rm = Some x' /\ same_seed x x'.
Proof.
  intros [Hh [k Hk] _] Hin Hx. split.
  - rewrite Hk. apply elem_of_app. now left.
  - now apply Hh.
Qed.

(** C1: once a directory has been registered, a later registration of a
    directory with the same cleaned path, whatever happened in between,
    returns the "already added" error, changes nothing, and the registry
    holds exactly one root whose path is the cleaned path. *)
Theorem second_registration_is_rejected
    (w w2 : world) (ctx ctx' : context) (d d' : string) (rm : loc) :
  wf w ->
  (result (AddAndStartLoadingRootModule ctx d) w).1 = Some rm ->
  steps (after (AddAndStartLoadingRootModule ctx d) w) w2 ->
  Clean d' = Clean d ->
  AddAndStartLoadingRootModule ctx' d' w2 =
    ((None, Some (ErrAlreadyAdded (Clean d))), w2) /\
  rootsAt w2 (Clean d) = [rm].
Proof.
  intros Hwf Hres Hsteps Hd.
  destruct (Add_registers _ _ _ _ Hres) as (_ & _ & Hrms & x & Hx & Hseed).
  set (w1 := after (AddAndStartLoadingRootModule ctx d) w) in *.
  assert (Hin1 : rm ∈ rms (rmm w1)).
  { rewrite Hrms. apply elem_of_app. right. now apply list_elem_of_singleton. }
  apply steps_evolves in Hsteps.
  destruct (registered_persists _ _ _ _ Hsteps Hin1 Hx)
    as (Hin2 & x' & Hx' & Hseed').
  assert (Hwf2 : wf w2).
  { apply (ev_wf _ _ Hsteps). apply (ev_wf _ _ (evolves_Add ctx d w)), Hwf. }
  assert (Hp : Path (deref w2 rm) = Clean d).
  { rewrite (deref_lookup _ _ _ Hx'). unfold Path.
    destruct Hseed' as [-> _]. now destruct Hseed as [-> _]. }
  split.
  - rewrite <- Hd. eapply Add_registered.
    rewrite Hd. apply rootModuleByPath_unique; [apply Hwf2 | exact Hin2 | exact Hp].
  - apply rootsAt_unique; [apply Hwf2 | exact Hin2 | exact Hp].
Qed.

(** *** The recognised suffixes *)

Lemma find_app {A : Type} (f : A -> bool) (l1 l2 : list A) :
  List.find f (l1 ++ l2) =
  match List.find f l1 with Some x => Some x | None => List.find f l2 end.
Proof.
  induction l1 as [|x l1 IH]; simpl; [reflexivity|].
  destruct (f x); [reflexivity | exact IH].
Qed.

Lemma find_first {A : Type} (f : A -> bool) (l1 l2 : list A) (x : A) :
  (forall y, y ∈ l1 -> f y = false) -> f x = true ->
  List.find f (l1 ++ x :: l2) = Some x.
Proof.
  intros H1 Hx. rewrite find_app.
  replace (List.find f l1) with (@None A).
  - simpl. now rewrite Hx.
  - symmetry. induction l1 as [|y l1 IH]; simpl; [reflexivity|].
    rewrite H1 by left. apply IH. intros z Hz. apply H1. now right.
Qed.

Lemma find_all_false {A : Type} (f : A -> bool) (l : list A) :
  (forall y, y ∈ l -> f y = false) -> List.find f l = None.
Proof.
  induction l as [|y l IH]; intros H; simpl; [reflexivity|].
  rewrite H by left. apply IH. intros z Hz. apply H. now right.
Qed.

Lemma trimLockFilePath_find (filePath : string) :
  trimLockFilePath filePath =
  match List.find (fun s => GoStrings.HasSuffix filePath s) recognizedSuffixes with
  | Some s => GoStrings.TrimSuffix filePath s
  | None => filePath
  end.
Proof.
  unfold trimLockFilePath, recognizedSuffixes. rewrite find_app.
  destruct (List.find _ (pluginLockFilePaths PathSeparator)); [reflexivity|].
  simpl. now destruct (GoStrings.HasSuffix filePath _).
Qed.

(** The path is cut at the first recognised suffix it ends in. *)
Lemma trimLockFilePath_first (pre s : string) (l1 l2 : list string) :
  recognizedSuffixes = l1 ++ s :: l2 ->
  (forall s', s' ∈ l1 -> GoStrings.HasSuffix (pre +:+ s) s' = false) ->
  trimLockFilePath (pre +:+ s) = pre.
Proof.
  intros Hr H1. rewrite trimLockFilePath_find, Hr.
  rewrite (find_first _ l1 l2 s).
  - apply TrimSuffix_append.
  - exact H1.
  - apply HasSuffix_append.
Qed.

Lemma trimLockFilePath_none (filePath : string) :
  (forall s, s ∈ recognizedSuffixes -> GoStrings.HasSuffix filePath s = false) ->
  trimLockFilePath filePath = filePath.
Proof.
  intros H. rewrite trimLockFilePath_find.
  now rewrite (find_all_false (fun s => GoStrings.HasSuffix filePath s) _ H).
Qed.

(** C2: [RootModuleByPath p] returns the root registered at [Clean p] when
    there is one; otherwise, when [Clean p] ends in a recognised lock-file or
    manifest suffix, the root registered at what is left of [Clean p] without
    (the first such) suffix; otherwise, a [RootModuleNotFoundErr] for
    [Clean p]. *)
Theorem RootModuleByPath_spec (w : world) (p : string) :
  wf w ->
  (forall rm, rm ∈ rms (rmm w) -> Path (deref w rm) = Clean p ->
     RootModuleByPath w p = (Some rm, None)) /\
  (Clean p ∉ registered_paths w ->
   forall l1 s l2 pre,
     recognizedSuffixes = l1 ++ s :: l2 ->
     (forall s', s' ∈ l1 -> GoStrings.HasSuffix (Clean p) s' = false) ->
     Clean p = pre +:+ s ->
     (forall rm, rm ∈ rms (rmm w) -> Path (deref w rm) = pre ->
        RootModuleByPath w p = (Some rm, None)) /\
     (pre ∉ registered_paths w ->
        RootModuleByPath w p = (None, Some (RootModuleNotFoundErr (Clean p))))) /\
  (Clean p ∉ registered_paths w ->
   (forall s, s ∈ recognizedSuffixes -> GoStrings.HasSuffix (Clean p) s = false) ->
   RootModuleByPath w p = (None, Some (RootModuleNotFoundErr (Clean p)))).
Proof.
  intros [_ _ N]. unfold RootModuleByPath. split; [|split].
  - intros rm Hin Hp.
    now rewrite (rootModuleByPath_unique _ _ _ N Hin Hp).
  - intros Hnin l1 s l2 pre Hrec Hl1 Hpre.
    apply rootModuleByPath_None in Hnin. rewrite Hnin.
    rewrite Hpre in *. rewrite (trimLockFilePath_first _ _ _ _ Hrec Hl1).
    split.
    + intros rm Hin Hp.
      now rewrite (rootModuleByPath_unique _ _ _ N Hin Hp).
    + intros Hnone. apply rootModuleByPath_None in Hnone. now rewrite Hnone.
  - intros Hnin Hs. rewrite (trimLockFilePath_none _ Hs).
    apply rootModuleByPath_None in Hnin. now rewrite Hnin.
Qed.

(** *** Candidates *)

Lemma ReferencesModulePath_iff (rm : rootModule) (path : string) :
  ReferencesModulePath rm path = true <->
  path ∈ st_referencedModulePaths (rm_state rm).
Proof.
  unfold ReferencesModulePath, pathEquals. rewrite existsb_exists. split.
  - intros (m & Hin & Heq). apply String.eqb_eq in Heq. subst.
    now apply list_elem_of_In.
  - intros Hin. exists path. split; [now apply list_elem_of_In|].
    apply String.eqb_refl.
Qed.

Lemma reference_loop (w : world) (path : string) (l init : list loc) :
  fold_left
    (fun candidates rm =>
       if ReferencesModulePath (deref w rm) path
       then candidates ++ [rm] else candidates) l init =
  init ++
  filter (fun rm => path ∈ st_referencedModulePaths (rm_state (deref w rm))) l.
Proof.
  revert init. induction l as [|rm l IH]; intros init; simpl.
  - now rewrite app_nil_r.
  - rewrite IH.
    destruct (ReferencesModulePath (deref w rm) path) eqn:E.
    + apply ReferencesModulePath_iff in E.
      rewrite filter_cons_True by exact E. now rewrite <- app_assoc.
    + rewrite filter_cons_False; [reflexivity|].
      intros Hin. apply ReferencesModulePath_iff in Hin. congruence.
Qed.

(** The first two blocks of [RootModuleCandidatesByPath] add the root that
    [RootModuleByPath] returns, when it was initialised. *)
Lemma direct_match_blocks (w : world) (p : string) :
  initializedDirectMatch w p =
  match rootModuleByPath w (Clean p) with
  | Some rm => if st_initialized (rm_state (deref w rm)) then [rm] else []
  | None =>
      match rootModuleByPath w (trimLockFilePath (Clean p)) with
      | Some rm => if st_initialized (rm_state (deref w rm)) then [rm] else []
      | None => []
      end
  end.
Proof.
  unfold initializedDirectMatch, RootModuleByPath.
  destruct (rootModuleByPath w (Clean p)) as [rm|]; [reflexivity|].
  now destruct (rootModuleByPath w (trimLockFilePath (Clean p))).
Qed.

(** C3 (as amended): the candidates for [p] are the direct match of
    [RootModuleByPath p], present only if it was initialised, followed by
    every registered root whose referenced module paths contain [Clean p],
    initialised or not, in registry order. *)
Theorem RootModuleCandidatesByPath_spec (w : world) (p : string) :
  RootModuleCandidatesByPath w p =
  initializedDirectMatch w p ++ referencingRoots w (Clean p).
Proof.
  rewrite direct_match_blocks.
  unfold RootModuleCandidatesByPath, referencingRoots.
  rewrite reference_loop. f_equal.
  destruct (rootModuleByPath w (Clean p)) as [rm|]; simpl.
  - now destruct (st_initialized (rm_state (deref w rm))).
  - destruct (rootModuleByPath w (trimLockFilePath (Clean p))) as [rm|]; simpl.
    + now destruct (st_initialized (rm_state (deref w rm))).
    + reflexivity.
Qed.

(** *** Schema resolution *)

#[local] Arguments MergedSchema : simpl never.
#[local] Arguments Path : simpl never.
#[local] Arguments deref : simpl never.

Lemma schemaLoop_skip (path : string) (pre rest : list loc) (w : world) :
  (forall rm, rm ∈ pre -> yieldsSchema (deref w rm) = false) ->
  schemaLoop path (pre ++ rest) w =
  schemaLoop path rest (with_trace (trace w ++ mergeFailures w pre) w).
Proof.
  revert w. induction pre as [|x pre IH]; intros w Hpre.
  - simpl. unfold with_trace. rewrite app_nil_r. now destruct w.
  - assert (Hx : yieldsSchema (deref w x) = false) by (apply Hpre; left).
    assert (Hpre' : forall rm, rm ∈ pre -> yieldsSchema (deref w rm) = false)
      by (intros rm Hrm; apply Hpre; now right).
    cbn. unfold yieldsSchema in Hx.
    unfold mbind, M_bind, gets at 1. cbn.
    destruct (MergedSchema (deref w x)) as [schema [e|]] eqn:E; cbn.
    + unfold gets, emit, modify. rewrite IH by exact Hpre'.
      unfold with_trace. cbn. rewrite <- app_assoc. reflexivity.
    + destruct schema; [discriminate|]. now apply IH.
Qed.

Lemma schemaLoop_found (path : string) (rm : loc) (rest : list loc)
      (w : world) (s : BodySchema) :
  MergedSchema (deref w rm) = (Some s, None) ->
  schemaLoop path (rm :: rest) w =
  (Some (Some s, None),
   with_trace (trace w ++ [LogFoundSchema path (Path (deref w rm))]) w).
Proof.
  intros E. cbn. unfold mbind, M_bind, gets at 1. cbn. now rewrite E.
Qed.

Lemma schemaLoop_none (path : string) (l : list loc) (w : world) :
  (forall rm, rm ∈ l -> yieldsSchema (deref w rm) = false) ->
  schemaLoop path l w =
  (None, with_trace (trace w ++ mergeFailures w l) w).
Proof.
  intros H. rewrite <- (app_nil_r l) at 1.
  now rewrite schemaLoop_skip by exact H.
Qed.

(** C4: [SchemaForPath p] walks the candidates in order.  The candidates in
    front of the first one that yields a schema are skipped, a line being
    logged for each of them whose schema computation errors, and that schema
    is returned.  When no candidate yields a schema, the result is that of the
    root [RootModuleByPath p] finds, or the error of that lookup. *)
Theorem SchemaForPath_spec (w : world) (p : string) :
  (forall pre rm post s,
     RootModuleCandidatesByPath w p = pre ++ rm :: post ->
     (forall x, x ∈ pre -> yieldsSchema (deref w x) = false) ->
     MergedSchema (deref w rm) = (Some s, None) ->
     SchemaForPath p w =
     ((Some s, None),
      with_trace (trace w ++ mergeFailures w pre ++
                  [LogFoundSchema p (Path (deref w rm))]) w)) /\
  ((forall x, x ∈ RootModuleCandidatesByPath w p ->
              yieldsSchema (deref w x) = false) ->
   let w' := with_trace
               (trace w ++ mergeFailures w (RootModuleCandidatesByPath w p)) w in
   (forall rm, RootModuleByPath w p = (Some rm, None) ->
      SchemaForPath p w = (MergedSchema (deref w rm), w')) /\
   (forall e, RootModuleByPath w p = (None, Some e) ->
      SchemaForPath p w = ((None, Some e), w'))).
Proof.
  split.
  - intros pre rm post s Hc Hpre Hrm. unfold SchemaForPath. run.
    rewrite Hc, schemaLoop_skip by exact Hpre.
    rewrite (schemaLoop_found _ _ _ _ s) by exact Hrm.
    run. now rewrite <- app_assoc.
  - intros Hall w'.
    assert (Hloop : SchemaForPath p w =
                    match RootModuleByPath w p with
                    | (_, Some e) => ((None, Some e), w')
                    | (Some rm, None) => (MergedSchema (deref w rm), w')
                    | (None, None) => (MergedSchema zeroRootModule, w')
                    end).
    { unfold SchemaForPath. unfold mbind, M_bind, gets at 1.
      rewrite schemaLoop_none by exact Hall. fold w'. unfold gets at 1.
      change (RootModuleByPath w' p) with (RootModuleByPath w p).
      now destruct (RootModuleByPath w p) as [[rm|] [e|]]. }
    split.
    + intros rm E. now rewrite Hloop, E.
    + intros e E. now rewrite Hloop, E.
Qed.

(** *** Loading *)

(** Running the submitted task records the error of the load on the entity. *)
Lemma loadTask_records (rm : loc) (w : world) :
  rm < length (heap w) ->
  rm_loadErr (deref (after (loadTask rm) w) rm) =
  (loadOutcome (env w) Background (deref w rm)).2.
Proof.
  intros Hl. unfold loadTask, rm_load, rm_setLoadErr.
  unfold after, mbind, M_bind, gets, update, modify, mret, M_ret, with_heap.
  unfold deref at 1. cbn.
  rewrite !list_lookup_alter_eq, (lookup_valid w rm Hl). reflexivity.
Qed.

Lemma workerPool_run_waiting (i : nat) (rm : loc) (w : world) :
  waitingQueue (pool (rmm w)) !! i = Some rm ->
  stopped (pool (rmm w)) = false ->
  after (workerPool_run i) w =
  after (loadTask rm)
    (with_rmm (with_pool (mkPool (delete i (waitingQueue (pool (rmm w)))) false)
                         (rmm w)) w).
Proof.
  intros Hq Hs. unfold workerPool_run. rewrite after_bind.
  change (result (gets (fun w => pool (rmm w))) w) with (pool (rmm w)).
  change (after (gets (fun w => pool (rmm w))) w) with w.
  rewrite Hq, Hs. now rewrite after_bind.
Qed.

(** C5: a registration that passes the duplicate check and the factory
    returns the new root.  In asynchronous mode the error it returns is nil
    whatever the load will do: the load is only queued, and the worker that
    later runs it records its error on the entity.  In synchronous mode the
    error returned is the error of the load. *)
Theorem loading_modes (w : world) (ctx : context) (d : string) :
  Clean d ∉ registered_paths w ->
  (discovery w (Clean d)).2 = None ->
  let rm := length (heap w) in
  let w1 := after (AddAndStartLoadingRootModule ctx d) w in
  (syncLoading (rmm w) = false ->
     result (AddAndStartLoadingRootModule ctx d) w = (Some rm, None) /\
     waitingQueue (pool (rmm w1)) = waitingQueue (pool (rmm w)) ++ [rm] /\
     deref w1 rm = newEntity w (Clean d) /\
     rm_loadErr (deref w1 rm) = None /\
     forall w2 i,
       waitingQueue (pool (rmm w2)) !! i = Some rm ->
       stopped (pool (rmm w2)) = false ->
       rm < length (heap w2) ->
       let w3 := after (workerPool_run i) w2 in
       waitingQueue (pool (rmm w3)) = delete i (waitingQueue (pool (rmm w2))) /\
       rm_loadErr (deref w3 rm) =
         (loadOutcome (env w2) Background (deref w2 rm)).2) /\
  (syncLoading (rmm w) = true ->
     result (AddAndStartLoadingRootModule ctx d) w =
       (Some rm, (loadOutcome (env w) ctx (newEntity w (Clean d))).2)).
Proof.
  intros Hf He rm w1. apply rootModuleByPath_None in Hf. split; intros Hs.
  - pose proof (Add_async ctx _ _ Hf He Hs) as HA.
    assert (Hw1 : w1 = (AddAndStartLoadingRootModule ctx d w).2) by reflexivity.
    clearbody w1. unfold result. rewrite HA in *. cbn [fst snd] in *. subst w1.
    split; [reflexivity|]. split; [reflexivity|].
    split; [now apply (deref_alloc_new w)|].
    split; [now rewrite (deref_alloc_new w _ (newEntity w (Clean d)))|].
    intros w2 i Hq Hst Hl. cbv zeta.
    rewrite (workerPool_run_waiting _ _ _ Hq Hst). split.
    + reflexivity.
    + now rewrite loadTask_records.
  - unfold result. now rewrite (Add_sync _ _ _ Hf He Hs).
Qed.

(** *** Cancellation *)

Lemma Path_alter_cancel (h : list rootModule) (l k : loc) :
  Path (default zeroRootModule (alter (set_cancelled true) l h !! k)) =
  Path (default zeroRootModule (h !! k)).
Proof.
  destruct (decide (l = k)) as [->|Hne].
  - rewrite list_lookup_alter_eq. now destruct (h !! k).
  - now rewrite list_lookup_alter_ne.
Qed.

Lemma Path_deref_cancel (w w' : world) (l k : loc) :
  heap w' = alter (set_cancelled true) l (heap w) ->
  Path (deref w' k) = Path (deref w k).
Proof. intros H. unfold deref. rewrite H. apply Path_alter_cancel. Qed.

Lemma cancelEvents_ext (w w' : world) (roots : list loc) :
  (forall rm, Path (deref w' rm) = Path (deref w rm)) ->
  cancelEvents w' roots = cancelEvents w roots.
Proof.
  intros H. unfold cancelEvents.
  induction roots as [|x l IH]; [reflexivity|].
  cbn [flat_map]. now rewrite IH, H.
Qed.

Lemma forM__cons {A : Type} (x : A) (xs : list A) (body : A -> M unit)
      (w : world) :
  forM_ (x :: xs) body w = forM_ xs body (after (body x) w).
Proof.
  cbn [forM_]. unfold mbind, M_bind, after. now destruct (body x w).
Qed.

Lemma CancelLoading_loop (roots : list loc) (w : world) :
  forM_ roots (fun rm =>
    p ← gets (fun w => Path (deref w rm));
    emit (LogCancelling p);;
    rm_CancelLoading rm;;
    p' ← gets (fun w => Path (deref w rm));
    emit (LogCancelled p')) w =
  (tt, mkWorld (cancelAll (heap w) roots) (rmm w) (env w)
               (trace w ++ cancelEvents w roots)).
Proof.
  set (body := fun rm : loc => _).
  revert w. induction roots as [|x l IH]; intros w.
  - cbn. rewrite app_nil_r. now destruct w.
  - rewrite forM__cons.
    assert (Hb : after (body x) w =
                 mkWorld (alter (set_cancelled true) x (heap w)) (rmm w) (env w)
                   (trace w ++ [LogCancelling (Path (deref w x));
                                EvCancelLoading x;
                                LogCancelled (Path (deref w x))])).
    { unfold body, rm_CancelLoading, after, mbind, M_bind, gets, emit, update,
        modify, with_trace, with_heap. cbn [heap rmm env trace snd].
      rewrite <- !app_assoc. cbn [app]. do 6 f_equal.
      now apply (Path_deref_cancel w _ x). }
    rewrite Hb, IH. cbn [heap rmm env trace]. f_equal. f_equal.
    rewrite <- app_assoc. f_equal.
    change (cancelEvents w (x :: l))
      with ([LogCancelling (Path (deref w x)); EvCancelLoading x;
             LogCancelled (Path (deref w x))] ++ cancelEvents w l).
    f_equal. apply cancelEvents_ext.
    intros rm. now apply (Path_deref_cancel w _ x).
Qed.

Lemma CancelLoading_eq (w : world) :
  CancelLoading w =
  (tt, mkWorld (cancelAll (heap w) (rms (rmm w)))
               (with_pool (mkPool [] true) (rmm w))
               (env w)
               (trace w ++ cancelEvents w (rms (rmm w)) ++ [EvPoolStop])).
Proof.
  unfold CancelLoading. unfold mbind at 1, M_bind at 1, gets at 1.
  unfold mbind at 1, M_bind at 1. rewrite CancelLoading_loop.
  unfold workerPool_Stop, mbind, M_bind, emit, modify, with_trace, with_rmm.
  cbn [heap rmm env trace]. now rewrite <- app_assoc.
Qed.

Lemma lookup_cancelAll (roots : list loc) (h : list rootModule) (k : loc) :
  cancelAll h roots !! k =
  if decide (k ∈ roots) then set_cancelled true <$> h !! k else h !! k.
Proof.
  revert h. induction roots as [|x l IH]; intros h.
  - cbn. destruct (decide (k ∈ [])) as [Hin|_]; [inversion Hin|reflexivity].
  - cbn [cancelAll fold_left]. fold (cancelAll (alter (set_cancelled true) x h) l).
    rewrite IH. destruct (decide (x = k)) as [->|Hne].
    + rewrite list_lookup_alter_eq.
      rewrite (decide_True (P := k ∈ k :: l)) by left.
      destruct (decide (k ∈ l)); [|reflexivity].
      now destruct (h !! k).
    + rewrite list_lookup_alter_ne by exact Hne.
      destruct (decide (k ∈ l)) as [Hin|Hnin].
      * now rewrite (decide_True (P := k ∈ x :: l)) by now right.
      * rewrite (decide_False (P := k ∈ x :: l)); [reflexivity|].
        intros Hin. apply elem_of_cons in Hin as [->|Hin]; contradiction.
Qed.

Lemma cancelAll_idempotent (roots : list loc) (h : list rootModule) :
  cancelAll (cancelAll h roots) roots = cancelAll h roots.
Proof.
  apply list_eq. intros k. rewrite !lookup_cancelAll.
  destruct (decide (k ∈ roots)); [|reflexivity].
  now destruct (h !! k).
Qed.

Lemma signals_cancelEvents (w : world) (roots : list loc) :
  signals (cancelEvents w roots ++ [EvPoolStop]) =
  map EvCancelLoading roots ++ [EvPoolStop].
Proof.
  induction roots as [|x l IH]; [reflexivity|].
  change (cancelEvents w (x :: l))
    with ([LogCancelling (Path (deref w x)); EvCancelLoading x;
           LogCancelled (Path (deref w x))] ++ cancelEvents w l).
  rewrite <- app_assoc. unfold signals in *. cbn [app List.filter map].
  now rewrite IH.
Qed.

(** C6: [CancelLoading] signals the cancellation handle of every registered
    root, in registry order, logging before and after each, and stops the
    pool last.  Afterwards every registered root is cancelled, the pool is
    stopped with an empty queue, and the registry is as before.  A second
    call leaves the root modules, the manager (registry and pool) and the
    outside world exactly as the first call left them. *)
Theorem CancelLoading_spec (w : world) :
  let w1 := after CancelLoading w in
  let w2 := after CancelLoading w1 in
  trace w1 = trace w ++ cancelEvents w (rms (rmm w)) ++ [EvPoolStop] /\
  signals (cancelEvents w (rms (rmm w)) ++ [EvPoolStop]) =
    map EvCancelLoading (rms (rmm w)) ++ [EvPoolStop] /\
  (forall rm x, rm ∈ rms (rmm w) -> heap w !! rm = Some x ->
                heap w1 !! rm = Some (set_cancelled true x)) /\
  (forall rm, rm ∉ rms (rmm w) -> heap w1 !! rm = heap w !! rm) /\
  rms (rmm w1) = rms (rmm w) /\
  pool (rmm w1) = mkPool [] true /\
  heap w2 = heap w1 /\ rmm w2 = rmm w1 /\ env w2 = env w1.
Proof.
  intros w1 w2. unfold w2, w1, after. rewrite !CancelLoading_eq.
  cbn [heap rmm env trace snd with_pool rms pool].
  split; [reflexivity|].
  split; [apply signals_cancelEvents|].
  split.
  { intros rm x Hin Hx. rewrite lookup_cancelAll, Hx.
    now rewrite decide_True by exact Hin. }
  split.
  { intros rm Hnin. rewrite lookup_cancelAll.
    now rewrite decide_False by exact Hnin. }
  split; [reflexivity|]. split; [reflexivity|].
  split; [apply cancelAll_idempotent|].
  split; reflexivity.
Qed.

(** *** Defaults *)

Lemma Add_seeds (ctx : context) (dir : string) (w : world) (rm : loc) :
  (result (AddAndStartLoadingRootModule ctx dir) w).1 = Some rm ->
  seeded_with (deref (after (AddAndStartLoadingRootModule ctx dir) w) rm) (rmm w).
Proof.
  intros H. destruct (Add_registers _ _ _ _ H) as (_ & _ & _ & x & Hx & Hs).
  rewrite (deref_lookup _ _ _ Hx).
  destruct Hs as (_ & H1 & H2 & H3). now repeat split.
Qed.

(** C7: each of the three setters changes the manager's default and nothing
    else; a root created after the call carries the new value; and no step of
    the program, a setter included, changes the path or the settings an
    existing root was created with. *)
Theorem setters_seed_later_roots_only (w : world) :
  (forall path,
     let w1 := after (SetTerraformExecPath path) w in
     w1 = with_rmm (with_tfExecPath path (rmm w)) w /\
     heap w1 = heap w /\
     forall ctx d rm,
       (result (AddAndStartLoadingRootModule ctx d) w1).1 = Some rm ->
       rm_tfExecPath
         (deref (after (AddAndStartLoadingRootModule ctx d) w1) rm) = path) /\
  (forall timeout,
     let w1 := after (SetTerraformExecTimeout timeout) w in
     w1 = with_rmm (with_tfExecTimeout timeout (rmm w)) w /\
     heap w1 = heap w /\
     forall ctx d rm,
       (result (AddAndStartLoadingRootModule ctx d) w1).1 = Some rm ->
       rm_tfExecTimeout
         (deref (after (AddAndStartLoadingRootModule ctx d) w1) rm) = timeout) /\
  (forall logPath,
     let w1 := after (SetTerraformExecLogPath logPath) w in
     w1 = with_rmm (with_tfExecLogPath logPath (rmm w)) w /\
     heap w1 = heap w /\
     forall ctx d rm,
       (result (AddAndStartLoadingRootModule ctx d) w1).1 = Some rm ->
       rm_tfExecLogPath
         (deref (after (AddAndStartLoadingRootModule ctx d) w1) rm) = logPath) /\
  (forall w' rm x,
     steps w w' -> heap w !! rm = Some x ->
     exists x', heap w' !! rm = Some x' /\ same_seed x x').
Proof.
  repeat split.
  - intros ctx d rm H. now destruct (Add_seeds _ _ _ _ H) as (-> & _ & _).
  - intros ctx d rm H. now destruct (Add_seeds _ _ _ _ H) as (_ & -> & _).
  - intros ctx d rm H. now destruct (Add_seeds _ _ _ _ H) as (_ & _ & ->).
  - intros w' rm x Hs Hx. exact (ev_heap _ _ (steps_evolves _ _ Hs) _ _ Hx).
Qed.

(** *** Registration failures *)

(** C9: when the factory fails, the call returns no root and the factory's
    error.  All that the call leaves behind is the entity the factory
    allocated, as cache discovery left it: no load has run on it, and with
    valid pointers no root list and no queue refers to it.  The manager
    (registry, pool with its queue, defaults), the log and every existing
    root are as before, so no load is queued or logged either; and once cache
    discovery succeeds for the directory, registering it again appends a root
    for it. *)
Theorem factory_failure_registers_nothing
    (w : world) (ctx : context) (d : string) (e : error) :
  Clean d ∉ registered_paths w ->
  (discovery w (Clean d)).2 = Some e ->
  let w1 := after (AddAndStartLoadingRootModule ctx d) w in
  result (AddAndStartLoadingRootModule ctx d) w = (None, Some e) /\
  heap w1 = heap w ++ [newEntity w (Clean d)] /\
  rm_state (newEntity w (Clean d)) = (discovery w (Clean d)).1 /\
  rm_loadErr (newEntity w (Clean d)) = None /\
  rmm w1 = rmm w /\ trace w1 = trace w /\ env w1 = env w /\
  (forall l x, heap w !! l = Some x -> heap w1 !! l = Some x) /\
  (wf w ->
   (length (heap w) ∉ rms (rmm w1)) /\
   (length (heap w) ∉ waitingQueue (pool (rmm w1)))) /\
  (wf w ->
   forall env' ctx',
     let w2 := with_env env' w1 in
     (discovery w2 (Clean d)).2 = None ->
     let w3 := after (AddAndStartLoadingRootModule ctx' d) w2 in
     exists rm,
       (result (AddAndStartLoadingRootModule ctx' d) w2).1 = Some rm /\
       rms (rmm w3) = rms (rmm w) ++ [rm] /\
       Path (deref w3 rm) = Clean d).
Proof.
  intros Hf He w1. apply rootModuleByPath_None in Hf.
  unfold w1, result, after.
  rewrite (Add_factory_error _ _ _ _ Hf He). cbn [fst snd].
  split; [reflexivity|]. split; [reflexivity|]. split; [reflexivity|].
  split; [reflexivity|]. split; [reflexivity|]. split; [reflexivity|].
  split; [reflexivity|]. split.
  { intros l x Hx. cbn. now apply lookup_app_l_Some. }
  split.
  { intros [V Q _]. cbn [rmm with_heap]. rewrite Forall_forall in V, Q.
    split; intros Hin; [apply V in Hin | apply Q in Hin]; lia. }
  intros Hwf env' ctx' He'. cbv zeta.
  set (w2 := with_env env' (with_heap (heap w ++ [newEntity w (Clean d)]) w)).
  assert (Hf2 : rootModuleByPath w2 (Clean d) = None).
  { rewrite <- Hf. apply rootModuleByPath_heap; [reflexivity|].
    intros rm Hrm. f_equal.
    apply (deref_alloc_old w w2 (newEntity w (Clean d))); [reflexivity|].
    destruct Hwf as [V _ _]. rewrite Forall_forall in V. now apply V. }
  exists (length (heap w2)).
  destruct (syncLoading (rmm w2)) eqn:Hs.
  - rewrite (Add_sync _ _ _ Hf2 He' Hs). cbn [fst snd rms rmm with_rms].
    split; [reflexivity|]. split; [reflexivity|].
    unfold deref. cbn [heap]. now rewrite lookup_alloc.
  - rewrite (Add_async _ _ _ Hf2 He' Hs).
    cbn [fst snd rms rmm with_rms with_pool].
    split; [reflexivity|]. split; [reflexivity|].
    unfold deref. cbn [heap]. now rewrite lookup_alloc.
Qed.

(** *** Lookups by equivalent paths *)

Section CleanedPaths.

(** [filepath.Clean] returns a path that it leaves as it is. *)
Hypothesis Clean_idempotent : forall p, Clean (Clean p) = Clean p.

(** C8: a path that cleans to the path of a registered root and the root's
    own path are resolved alike; with pairwise different registered paths,
    both to that root. *)
Theorem RootModuleByPath_cleaned (w : world) (r : loc) (p : string) :
  r ∈ rms (rmm w) ->
  Clean p = Path (deref w r) ->
  RootModuleByPath w p = RootModuleByPath w (Path (deref w r)) /\
  (wf w -> RootModuleByPath w p = (Some r, None)).
Proof.
  intros Hin Hp. split.
  - unfold RootModuleByPath. now rewrite <- Hp, Clean_idempotent.
  - intros [_ _ N]. unfold RootModuleByPath.
    now rewrite (rootModuleByPath_unique w (Clean p) r N Hin).
Qed.

End CleanedPaths.

(** *** Repeated candidates *)

(** A root that is the initialised direct match of a path and references
    the cleaned path is listed once for each reason. *)
Lemma candidates_direct_and_referencing (w : world) (p : string) (r : loc) :
  RootModuleByPath w p = (Some r, None) ->
  st_initialized (rm_state (deref w r)) = true ->
  r ∈ rms (rmm w) ->
  Clean p ∈ st_referencedModulePaths (rm_state (deref w r)) ->
  exists l1 l2, RootModuleCandidatesByPath w p = r :: l1 ++ r :: l2.
Proof.
  intros Hd Hi Hin Href.
  assert (Hr : r ∈ referencingRoots w (Clean p)).
  { unfold referencingRoots. apply list_elem_of_filter. now split. }
  apply list_elem_of_split in Hr as (l1 & l2 & Hr). exists l1, l2.
  unfold referencingRoots in Hr.
  unfold RootModuleCandidatesByPath. rewrite reference_loop, Hr.
  change (r :: l1 ++ r :: l2) with ([r] ++ l1 ++ r :: l2). f_equal.
  pose proof (direct_match_blocks w p) as Hb.
  unfold initializedDirectMatch in Hb. rewrite Hd, Hi in Hb.
  destruct (rootModuleByPath w (Clean p)) as [rm|]; simpl.
  - destruct (st_initialized (rm_state (deref w rm))); simpl; congruence.
  - destruct (rootModuleByPath w (trimLockFilePath (Clean p))) as [rm|]; simpl.
    + destruct (st_initialized (rm_state (deref w rm))); simpl; congruence.
    + discriminate.
Qed.

(** ** The rest of the manager *)

(** [ListRootModules] copies the registry, root by root. *)
Definition ListRootModules (w : world) : list loc :=
  let modules := [] in
  fold_left (fun modules rm => modules ++ [rm]) (rms (rmm w)) modules.

(** *** Listing and looking up *)

Lemma fold_append {A : Type} (l init : list A) :
  fold_left (fun acc x => acc ++ [x]) l init = init ++ l.
Proof.
  revert init. induction l as [|x l IH]; intros init; simpl.
  - now rewrite app_nil_r.
  - now rewrite IH, <- app_assoc.
Qed.

Lemma ListRootModules_eq (w : world) : ListRootModules w = rms (rmm w).
Proof. unfold ListRootModules. now rewrite fold_append. Qed.

(** A root that a registration returned is registered in every later state,
    at the cleaned directory, and the later state is well formed. *)
Lemma registered_later (w w2 : world) (ctx : context) (d : string) (rm : loc) :
  wf w ->
  (result (AddAndStartLoadingRootModule ctx d) w).1 = Some rm ->
  steps (after (AddAndStartLoadingRootModule ctx d) w) w2 ->
  wf w2 /\ rm ∈ rms (rmm w2) /\ Path (deref w2 rm) = Clean d.
Proof.
  intros Hwf Hres Hsteps.
  destruct (Add_registers _ _ _ _ Hres) as (_ & _ & Hrms & x & Hx & Hseed).
  set (w1 := after (AddAndStartLoadingRootModule ctx d) w) in *.
  assert (Hin1 : rm ∈ rms (rmm w1)).
  { rewrite Hrms. apply elem_of_app. right. now apply list_elem_of_singleton. }
  apply steps_evolves in Hsteps.
  destruct (registered_persists _ _ _ _ Hsteps Hin1 Hx)
    as (Hin2 & x' & Hx' & Hseed').
  split; [|split; [exact Hin2|]].
  - apply (ev_wf _ _ Hsteps). apply (ev_wf _ _ (evolves_Add ctx d w)), Hwf.
  - rewrite (deref_lookup _ _ _ Hx'). unfold Path.
    destruct Hseed' as [-> _]. now destruct Hseed as [-> _].
Qed.

(** X3: a root that a registration returned is found by every later lookup
    of a path that cleans to the same directory, whatever happened in
    between, and it is among the listed roots. *)
Theorem registered_root_is_found
    (w w2 : world) (ctx : context) (d d' : string) (rm : loc) :
  wf w ->
  (result (AddAndStartLoadingRootModule ctx d) w).1 = Some rm ->
  steps (after (AddAndStartLoadingRootModule ctx d) w) w2 ->
  Clean d' = Clean d ->
  RootModuleByPath w2 d' = (Some rm, None) /\
  rm ∈ ListRootModules w2 /\
  Path (deref w2 rm) = Clean d.
Proof.
  intros Hwf Hres Hsteps Hd.
  destruct (registered_later _ _ _ _ _ Hwf Hres Hsteps) as ([_ _ N] & Hin & Hp).
  split; [|split; [now rewrite ListRootModules_eq | exact Hp]].
  unfold RootModuleByPath. rewrite Hd.
  now rewrite (rootModuleByPath_unique _ _ _ N Hin Hp).
Qed.

(** X4: what a lookup answers, in any state: either a registered root and
    no error, the root's path being the cleaned path or, when no root is
    registered there, the cleaned path without its lock-file or manifest
    suffix; or no root and a [RootModuleNotFoundErr] that carries the cleaned
    path, no root being registered at either path.  It never answers with
    neither or with both. *)
Theorem RootModuleByPath_answers (w : world) (p : string) :
  (exists rm,
     RootModuleByPath w p = (Some rm, None) /\
     rm ∈ rms (rmm w) /\
     (Path (deref w rm) = Clean p \/
      ((Clean p ∉ registered_paths w) /\
       Path (deref w rm) = trimLockFilePath (Clean p)))) \/
  (RootModuleByPath w p = (None, Some (RootModuleNotFoundErr (Clean p))) /\
   (Clean p ∉ registered_paths w) /\
   (trimLockFilePath (Clean p) ∉ registered_paths w)).
Proof.
  unfold RootModuleByPath.
  destruct (rootModuleByPath w (Clean p)) as [rm|] eqn:E1.
  { left. exists rm. apply rootModuleByPath_Some in E1 as [Hin Hp].
    split; [reflexivity|]. split; [exact Hin | now left]. }
  apply rootModuleByPath_None in E1.
  destruct (rootModuleByPath w (trimLockFilePath (Clean p))) as [rm|] eqn:E2.
  - left. exists rm. apply rootModuleByPath_Some in E2 as [Hin Hp].
    split; [reflexivity|]. split; [exact Hin | now right].
  - right. apply rootModuleByPath_None in E2. now repeat split.
Qed.

(** X5: [trimLockFilePath] removes one recognised suffix from the end of
    the path, the first in the order plugin lock files, module manifest that
    the path ends in, and nothing else; a path that ends in none of them is
    returned as it is. *)
Theorem trimLockFilePath_cuts_one_suffix (filePath : string) :
  (exists l1 s l2,
     recognizedSuffixes = l1 ++ s :: l2 /\
     (forall s', s' ∈ l1 -> GoStrings.HasSuffix filePath s' = false) /\
     filePath = trimLockFilePath filePath +:+ s) \/
  ((forall s, s ∈ recognizedSuffixes ->
      ~ exists pre, filePath = pre +:+ s) /\
   trimLockFilePath filePath = filePath).
Proof.
  rewrite trimLockFilePath_find.
  destruct (List.find _ recognizedSuffixes) as [s|] eqn:E.
  - left. induction recognizedSuffixes as [|x l IH]; [discriminate|].
    simpl in E. destruct (GoStrings.HasSuffix filePath x) eqn:Hx.
    + injection E as <-. exists [], x, l. split; [reflexivity|].
      split; [intros s' Hs'; inversion Hs'|].
      symmetry. now apply TrimSuffix_spec.
    + destruct (IH E) as (l1 & s0 & l2 & Hl & Hl1 & Hs).
      exists (x :: l1), s0, l2. split; [now rewrite Hl|].
      split; [|exact Hs].
      intros s' Hs'. apply elem_of_cons in Hs' as [->|Hs']; auto.
  - right. split; [|reflexivity].
    intros s Hs [pre Hpre].
    apply list_elem_of_In in Hs.
    pose proof (find_none _ _ E s Hs) as Hf. simpl in Hf.
    rewrite Hpre, HasSuffix_append in Hf. discriminate.
Qed.

(** *** Candidates are registered roots *)

Lemma NoDup_rms (w : world) : wf w -> NoDup (rms (rmm w)).
Proof.
  intros [_ _ N]. unfold registered_paths in N.
  exact (NoDup_fmap_1 (fun rm => Path (deref w rm)) _ N).
Qed.

Lemma count_occ_NoDup (l : list loc) (x : loc) :
  NoDup l -> count_occ Nat.eq_dec l x <= 1.
Proof.
  induction 1 as [|a l Ha _ IH]; simpl; [lia|].
  destruct (Nat.eq_dec a x) as [->|_]; [|exact IH].
  rewrite (proj1 (count_occ_not_In Nat.eq_dec l x)); [lia|].
  intros Hin. apply Ha. now apply list_elem_of_In.
Qed.

Lemma count_occ_short (l : list loc) (x : loc) :
  length l <= 1 -> count_occ Nat.eq_dec l x <= 1.
Proof.
  destruct l as [|a [|b l]]; simpl; intros H; try lia.
  destruct (Nat.eq_dec a x); lia.
Qed.

Lemma initializedDirectMatch_short (w : world) (p : string) :
  length (initializedDirectMatch w p) <= 1 /\
  forall rm, rm ∈ initializedDirectMatch w p -> rm ∈ rms (rmm w).
Proof.
  rewrite direct_match_blocks.
  destruct (rootModuleByPath w (Clean p)) as [rm|] eqn:E1.
  { apply rootModuleByPath_Some in E1 as [Hin _].
    destruct (st_initialized _); simpl; split; try lia.
    - intros x Hx. apply list_elem_of_singleton in Hx. now subst.
    - intros x Hx. inversion Hx. }
  destruct (rootModuleByPath w (trimLockFilePath (Clean p))) as [rm|] eqn:E2.
  - apply rootModuleByPath_Some in E2 as [Hin _].
    destruct (st_initialized _); simpl; split; try lia.
    + intros x Hx. apply list_elem_of_singleton in Hx. now subst.
    + intros x Hx. inversion Hx.
  - simpl. split; [lia|]. intros x Hx. inversion Hx.
Qed.

Lemma candidates_split (w : world) (p : string) :
  RootModuleCandidatesByPath w p =
  initializedDirectMatch w p ++ referencingRoots w (Clean p).
Proof.
  rewrite direct_match_blocks.
  unfold RootModuleCandidatesByPath, referencingRoots.
  rewrite reference_loop. f_equal.
  destruct (rootModuleByPath w (Clean p)) as [rm|]; simpl.
  - now destruct (st_initialized (rm_state (deref w rm))).
  - destruct (rootModuleByPath w (trimLockFilePath (Clean p))) as [rm|]; simpl.
    + now destruct (st_initialized (rm_state (deref w rm))).
    + reflexivity.
Qed.

Lemma candidates_registered (w : world) (p : string) (rm : loc) :
  rm ∈ RootModuleCandidatesByPath w p -> rm ∈ rms (rmm w).
Proof.
  rewrite candidates_split. intros H. apply elem_of_app in H as [H|H].
  - now apply initializedDirectMatch_short in H.
  - unfold referencingRoots in H. now apply list_elem_of_filter in H as [_ H].
Qed.

(** X6: every candidate is a registered root; no root is listed more than
    twice (once as the direct match, once for referencing the path); so there
    is at most one candidate more than there are registered roots, and a
    manager without roots has no candidate for any path. *)
Theorem candidates_are_registered_roots (w : world) (p : string) :
  wf w ->
  (forall rm, rm ∈ RootModuleCandidatesByPath w p -> rm ∈ rms (rmm w)) /\
  (forall rm, count_occ Nat.eq_dec (RootModuleCandidatesByPath w p) rm <= 2) /\
  length (RootModuleCandidatesByPath w p) <= S (length (rms (rmm w))) /\
  (rms (rmm w) = [] -> RootModuleCandidatesByPath w p = []).
Proof.
  intros Hwf. split; [intros rm; apply candidates_registered|].
  pose proof (initializedDirectMatch_short w p) as [Hshort Hdirect].
  assert (Hnd : NoDup (referencingRoots w (Clean p))).
  { unfold referencingRoots. apply NoDup_filter, NoDup_rms, Hwf. }
  split; [|split].
  - intros rm. rewrite candidates_split, count_occ_app.
    pose proof (count_occ_short _ rm Hshort).
    pose proof (count_occ_NoDup _ rm Hnd). lia.
  - rewrite candidates_split, length_app.
    pose proof (length_filter
                  (fun rm => Clean p ∈
                     st_referencedModulePaths (rm_state (deref w rm)))
                  (rms (rmm w))) as Hl.
    unfold referencingRoots. lia.
  - intros Hempty.
    destruct (RootModuleCandidatesByPath w p) as [|c cs] eqn:E; [reflexivity|].
    assert (Hc : c ∈ rms (rmm w)).
    { apply (candidates_registered w p). rewrite E. left. }
    rewrite Hempty in Hc. inversion Hc.
Qed.

(** *** What the lookups read *)

(** Two states show the same registry when they hold the same roots in the
    same order and every pointer refers to a root with the same path and the
    same cached state. *)
Definition same_registry (w w' : world) : Prop :=
  rms (rmm w') = rms (rmm w) /\
  forall l, Path (deref w' l) = Path (deref w l) /\
            rm_state (deref w' l) = rm_state (deref w l).

(** What the loop of [SchemaForPath] returns from inside ([None] when it
    runs to its end) and what it logs, read off the state it starts in. *)
Fixpoint schemaScan (w : world) (path : string) (candidates : list loc)
  : option (option BodySchema * option error) * list event :=
  match candidates with
  | [] => (None, [])
  | rm :: rest =>
      match MergedSchema (deref w rm) with
      | (_, Some e) =>
          ((schemaScan w path rest).1,
           LogMergeFailed (Path (deref w rm)) e :: (schemaScan w path rest).2)
      | (Some s, None) =>
          (Some (Some s, None), [LogFoundSchema path (Path (deref w rm))])
      | (None, None) => schemaScan w path rest
      end
  end.

(** The lines [SchemaForPath] writes. *)
Definition schemaLogLine (path : string) (e : event) : Prop :=
  match e with
  | LogMergeFailed _ _ => True
  | LogFoundSchema p _ => p = path
  | _ => False
  end.

Lemma same_registry_refl (w : world) : same_registry w w.
Proof. split; [reflexivity|]. intros l. now split. Qed.

Lemma same_registry_trans (a b c : world) :
  same_registry a b -> same_registry b c -> same_registry a c.
Proof.
  intros [R1 D1] [R2 D2]. split; [congruence|].
  intros l. destruct (D1 l), (D2 l). split; congruence.
Qed.

Lemma same_registry_heap (w w' : world) :
  heap w' = heap w -> rms (rmm w') = rms (rmm w) -> same_registry w w'.
Proof.
  intros Hh Hr. split; [exact Hr|]. intros l. unfold deref. now rewrite Hh.
Qed.

Lemma rootModuleByPath_same (w w' : world) (dir : string) :
  same_registry w w' -> rootModuleByPath w' dir = rootModuleByPath w dir.
Proof.
  intros [Hr Hd]. apply rootModuleByPath_heap; [exact Hr|].
  intros rm _. apply Hd.
Qed.

Lemma RootModuleByPath_same (w w' : world) (p : string) :
  same_registry w w' -> RootModuleByPath w' p = RootModuleByPath w p.
Proof.
  intros H. unfold RootModuleByPath.
  now rewrite !(rootModuleByPath_same w w') by exact H.
Qed.

Lemma fold_left_ext {A B : Type} (f g : A -> B -> A) (l : list B) (a : A) :
  (forall x y, f x y = g x y) -> fold_left f l a = fold_left g l a.
Proof.
  intros H. revert a. induction l as [|y l IH]; intros a; simpl;
    [reflexivity|]. now rewrite H, IH.
Qed.

Lemma RootModuleCandidatesByPath_same (w w' : world) (p : string) :
  same_registry w w' ->
  RootModuleCandidatesByPath w' p = RootModuleCandidatesByPath w p.
Proof.
  intros H. pose proof H as [Hr Hd].
  assert (HW : forall l, WasInitialized (deref w' l) = WasInitialized (deref w l)).
  { intros l. unfold WasInitialized. now rewrite (proj2 (Hd l)). }
  assert (HR : forall l q, ReferencesModulePath (deref w' l) q =
                           ReferencesModulePath (deref w l) q).
  { intros l q. unfold ReferencesModulePath. now rewrite (proj2 (Hd l)). }
  unfold RootModuleCandidatesByPath.
  rewrite !(rootModuleByPath_same w w') by exact H. rewrite Hr.
  rewrite (fold_left_ext
             (fun candidates rm =>
                if ReferencesModulePath (deref w' rm) (Clean p)
                then candidates ++ [rm] else candidates)
             (fun candidates rm =>
                if ReferencesModulePath (deref w rm) (Clean p)
                then candidates ++ [rm] else candidates))
    by (intros x y; now rewrite HR).
  f_equal.
  destruct (rootModuleByPath w (Clean p)) as [rm|]; [now rewrite HW|].
  destruct (rootModuleByPath w (trimLockFilePath (Clean p))) as [rm|];
    [now rewrite HW | reflexivity].
Qed.

Lemma schemaScan_same (w w' : world) (p : string) (cs : list loc) :
  same_registry w w' -> schemaScan w' p cs = schemaScan w p cs.
Proof.
  intros [_ Hd]. induction cs as [|rm rest IH]; [reflexivity|].
  cbn [schemaScan]. rewrite IH. unfold MergedSchema.
  now rewrite (proj1 (Hd rm)), (proj2 (Hd rm)).
Qed.

Lemma schemaLoop_scan (p : string) (cs : list loc) (w : world) :
  schemaLoop p cs w =
  ((schemaScan w p cs).1, with_trace (trace w ++ (schemaScan w p cs).2) w).
Proof.
  revert w. induction cs as [|rm rest IH]; intros w.
  - cbn. unfold with_trace. rewrite app_nil_r. now destruct w.
  - cbn [schemaLoop schemaScan]. unfold mbind, M_bind, gets at 1.
    destruct (MergedSchema (deref w rm)) as [schema [e|]] eqn:E.
    + unfold gets at 1, emit, modify. rewrite IH.
      rewrite (schemaScan_same w) by (now apply same_registry_heap).
      unfold with_trace. cbn [heap rmm env trace fst snd].
      rewrite <- app_assoc. now destruct schema.
    + destruct schema as [s|]; [reflexivity|]. apply IH.
Qed.

Lemma SchemaForPath_eq (p : string) (w : world) :
  SchemaForPath p w =
  (match (schemaScan w p (RootModuleCandidatesByPath w p)).1 with
   | Some res => res
   | None =>
       match RootModuleByPath w p with
       | (_, Some e) => (None, Some e)
       | (Some rm, None) => MergedSchema (deref w rm)
       | (None, None) => MergedSchema zeroRootModule
       end
   end,
   with_trace
     (trace w ++ (schemaScan w p (RootModuleCandidatesByPath w p)).2) w).
Proof.
  unfold SchemaForPath. unfold mbind, M_bind, gets at 1.
  rewrite schemaLoop_scan.
  destruct (schemaScan w p (RootModuleCandidatesByPath w p)) as [[res|] t];
    [reflexivity|].
  cbn [fst snd]. unfold gets at 1.
  set (w' := with_trace (trace w ++ t) w).
  change (RootModuleByPath w' p) with (RootModuleByPath w p).
  now destruct (RootModuleByPath w p) as [[rm|] [e|]].
Qed.

Lemma SchemaForPath_same (w w' : world) (p : string) :
  same_registry w w' ->
  result (SchemaForPath p) w' = result (SchemaForPath p) w.
Proof.
  intros H. unfold result. rewrite !SchemaForPath_eq. cbn [fst].
  rewrite (RootModuleCandidatesByPath_same w w'), (schemaScan_same w w'),
    (RootModuleByPath_same w w') by exact H.
  destruct (schemaScan w p _).1; [reflexivity|].
  destruct (RootModuleByPath w p) as [[rm|] [e|]]; try reflexivity.
  destruct H as [_ Hd]. unfold MergedSchema. now rewrite (proj2 (Hd rm)).
Qed.

Lemma schemaScan_lines (w : world) (p : string) (cs : list loc) :
  Forall (schemaLogLine p) (schemaScan w p cs).2 /\
  length (schemaScan w p cs).2 <= length cs.
Proof.
  induction cs as [|rm rest [IH1 IH2]]; [split; [constructor | reflexivity]|].
  cbn [schemaScan length].
  destruct (MergedSchema (deref w rm)) as [[s|] [e|]]; cbn [fst snd length].
  - split; [now constructor | lia].
  - split; [repeat constructor | lia].
  - split; [now constructor | lia].
  - split; [exact IH1 | lia].
Qed.

Lemma schemaScan_origin (w : world) (p : string) (cs : list loc)
      (res : option BodySchema * option error) :
  (schemaScan w p cs).1 = Some res ->
  exists rm s, rm ∈ cs /\ MergedSchema (deref w rm) = (Some s, None) /\
               res = (Some s, None).
Proof.
  induction cs as [|rm rest IH]; [discriminate|].
  cbn [schemaScan].
  destruct (MergedSchema (deref w rm)) as [[s|] [e|]] eqn:E; cbn [fst].
  - intros H. destruct (IH H) as (x & s' & Hx & Hs); exists x, s'.
    split; [now right | exact Hs].
  - intros [= <-]. exists rm, s. split; [left | now split].
  - intros H. destruct (IH H) as (x & s' & Hx & Hs); exists x, s'.
    split; [now right | exact Hs].
  - intros H. destruct (IH H) as (x & s' & Hx & Hs); exists x, s'.
    split; [now right | exact Hs].
Qed.

(** X7: [SchemaForPath] changes nothing but the log: root modules, manager
    and outside world are as before, and the log is longer by at most one
    line for each candidate, each a merge failure or the line for the schema
    found for this path.  So asking again, for this path or another, gets
    the answer it would have got before. *)
Theorem SchemaForPath_only_logs (w : world) (p : string) :
  let w1 := after (SchemaForPath p) w in
  heap w1 = heap w /\ rmm w1 = rmm w /\ env w1 = env w /\
  (exists t, trace w1 = trace w ++ t /\
             Forall (schemaLogLine p) t /\
             length t <= length (RootModuleCandidatesByPath w p)) /\
  (forall q, RootModuleByPath w1 q = RootModuleByPath w q /\
             RootModuleCandidatesByPath w1 q = RootModuleCandidatesByPath w q /\
             result (SchemaForPath q) w1 = result (SchemaForPath q) w).
Proof.
  intros w1. unfold w1, after. rewrite SchemaForPath_eq. cbn [snd].
  set (t := (schemaScan w p (RootModuleCandidatesByPath w p)).2).
  split; [reflexivity|]. split; [reflexivity|]. split; [reflexivity|].
  split.
  - exists t. split; [reflexivity|]. apply schemaScan_lines.
  - intros q.
    assert (H : same_registry w (with_trace (trace w ++ t) w))
      by (now apply same_registry_heap).
    split; [now apply RootModuleByPath_same|].
    split; [now apply RootModuleCandidatesByPath_same|].
    now apply SchemaForPath_same.
Qed.

(** X8: whatever [SchemaForPath] returns is what [MergedSchema] of one
    registered root returns, schema and error alike; or, exactly when
    [RootModuleByPath] finds no root for the path and no candidate yields a
    schema, no schema and the [RootModuleNotFoundErr] of that lookup. *)
Theorem SchemaForPath_result_origin (w : world) (p : string) :
  (exists rm, rm ∈ rms (rmm w) /\
              result (SchemaForPath p) w = MergedSchema (deref w rm)) \/
  (result (SchemaForPath p) w =
     (None, Some (RootModuleNotFoundErr (Clean p))) /\
   RootModuleByPath w p = (None, Some (RootModuleNotFoundErr (Clean p))) /\
   forall rm, rm ∈ RootModuleCandidatesByPath w p ->
              yieldsSchema (deref w rm) = false).
Proof.
  unfold result. rewrite SchemaForPath_eq. cbn [fst].
  destruct (schemaScan w p (RootModuleCandidatesByPath w p)).1 as [res|] eqn:E.
  { left. apply schemaScan_origin in E as (rm & s & Hin & Hm & ->).
    exists rm. split; [now apply candidates_registered in Hin | now rewrite Hm]. }
  assert (Hnone : forall rm, rm ∈ RootModuleCandidatesByPath w p ->
                             yieldsSchema (deref w rm) = false).
  { revert E. induction (RootModuleCandidatesByPath w p) as [|c cs IH];
      [intros _ rm Hrm; inversion Hrm|].
    cbn [schemaScan]. unfold yieldsSchema.
    destruct (MergedSchema (deref w c)) as [[s|] [e|]] eqn:Ec; cbn [fst];
      try discriminate; intros H rm Hrm;
      (apply elem_of_cons in Hrm as [->|Hrm]; [now rewrite Ec | now apply IH]). }
  destruct (RootModuleByPath_answers w p)
    as [(rm & -> & Hin & _) | (-> & _ & _)].
  - left. now exists rm.
  - right. now repeat split.
Qed.

(** X9: the schema of the initialised root registered at the cleaned path
    wins: when that root has a merged schema, [SchemaForPath] returns it and
    logs one line, whatever the roots that reference the path would answer. *)
Theorem initialized_root_schema_wins
    (w : world) (p : string) (r : loc) (s : BodySchema) :
  wf w ->
  r ∈ rms (rmm w) ->
  Path (deref w r) = Clean p ->
  st_initialized (rm_state (deref w r)) = true ->
  MergedSchema (deref w r) = (Some s, None) ->
  SchemaForPath p w =
  ((Some s, None),
   with_trace (trace w ++ [LogFoundSchema p (Clean p)]) w).
Proof.
  intros [_ _ N] Hin Hp Hi Hm.
  assert (Hc : exists rest, RootModuleCandidatesByPath w p = r :: rest).
  { exists (referencingRoots w (Clean p)).
    rewrite candidates_split, direct_match_blocks.
    now rewrite (rootModuleByPath_unique _ _ _ N Hin Hp), Hi. }
  destruct Hc as [rest Hc].
  rewrite SchemaForPath_eq, Hc. cbn [schemaScan]. now rewrite Hm, Hp.
Qed.

(** *** Cancellation and the lookups *)

Lemma same_registry_CancelLoading (w : world) :
  same_registry w (after CancelLoading w).
Proof.
  unfold after. rewrite CancelLoading_eq. cbn [snd]. split; [reflexivity|].
  intros l. unfold deref. cbn [heap]. rewrite lookup_cancelAll.
  destruct (decide (l ∈ rms (rmm w))); [|now split].
  now destruct (heap w !! l).
Qed.

(** X10: cancelling the loading unregisters nothing: the listed roots, the
    root and the candidates found for a path, and the schema returned for it
    are what they were before the call. *)
Theorem cancellation_keeps_lookups (w : world) (p : string) :
  let w1 := after CancelLoading w in
  ListRootModules w1 = ListRootModules w /\
  RootModuleByPath w1 p = RootModuleByPath w p /\
  RootModuleCandidatesByPath w1 p = RootModuleCandidatesByPath w p /\
  result (SchemaForPath p) w1 = result (SchemaForPath p) w.
Proof.
  intros w1. pose proof (same_registry_CancelLoading w) as H. fold w1 in H.
  split; [rewrite !ListRootModules_eq; apply H|].
  split; [now apply RootModuleByPath_same|].
  split; [now apply RootModuleCandidatesByPath_same|].
  now apply SchemaForPath_same.
Qed.

(** *** What a registration returns *)

(** X11: a registration returns a root, an error, or both, never neither.
    A returned root is new, registered last, at the cleaned directory, and an
    error beside it can only come from a synchronous load.  Without a root,
    the manager and the log are as before.  In every case the existing root
    modules and the outside world are untouched. *)
Theorem registration_outcomes (ctx : context) (d : string) (w : world) :
  let w1 := after (AddAndStartLoadingRootModule ctx d) w in
  match result (AddAndStartLoadingRootModule ctx d) w with
  | (Some rm, err) =>
      rm = length (heap w) /\
      ListRootModules w1 = ListRootModules w ++ [rm] /\
      Path (deref w1 rm) = Clean d /\
      (err <> None -> syncLoading (rmm w) = true)
  | (None, Some e) => rmm w1 = rmm w /\ trace w1 = trace w
  | (None, None) => False
  end /\
  (forall l x, heap w !! l = Some x -> heap w1 !! l = Some x) /\
  env w1 = env w.
Proof.
  intros w1. unfold w1, result, after. clear w1.
  destruct (rootModuleByPath w (Clean d)) as [r|] eqn:Hf.
  { rewrite (Add_registered _ _ _ _ Hf). cbn [fst snd]. now repeat split. }
  destruct (discovery w (Clean d)).2 as [e|] eqn:He.
  { rewrite (Add_factory_error _ _ _ _ Hf He). cbn [fst snd].
    split; [now split|]. split; [|reflexivity].
    intros l x Hx. cbn. now apply lookup_app_l_Some. }
  destruct (syncLoading (rmm w)) eqn:Hs.
  - rewrite (Add_sync _ _ _ Hf He Hs). cbn [fst snd].
    split; [|split; [|reflexivity]].
    + split; [reflexivity|]. rewrite !ListRootModules_eq.
      split; [reflexivity|]. split; [|reflexivity].
      unfold deref. cbn [heap]. now rewrite lookup_alloc.
    + intros l x Hx. cbn. now apply lookup_app_l_Some.
  - rewrite (Add_async _ _ _ Hf He Hs). cbn [fst snd].
    split; [|split; [|reflexivity]].
    + split; [reflexivity|]. rewrite !ListRootModules_eq.
      split; [reflexivity|]. split; [|congruence].
      unfold deref. cbn [heap]. now rewrite lookup_alloc.
    + intros l x Hx. cbn. now apply lookup_app_l_Some.
Qed.

(** X12: a registration that returns a root together with an error (a
    synchronous load that failed) has registered the root all the same: a
    lookup of the directory finds it, and registering the directory again is
    rejected as already added. *)
Theorem failed_sync_load_still_registers
    (w : world) (ctx : context) (d : string) (rm : loc) (e : error) :
  wf w ->
  result (AddAndStartLoadingRootModule ctx d) w = (Some rm, Some e) ->
  let w1 := after (AddAndStartLoadingRootModule ctx d) w in
  syncLoading (rmm w) = true /\
  (loadOutcome (env w) ctx (newEntity w (Clean d))).2 = Some e /\
  RootModuleByPath w1 d = (Some rm, None) /\
  forall ctx',
    AddAndStartLoadingRootModule ctx' d w1 =
    ((None, Some (ErrAlreadyAdded (Clean d))), w1).
Proof.
  intros Hwf Hres w1.
  assert (Hrm : (result (AddAndStartLoadingRootModule ctx d) w).1 = Some rm)
    by now rewrite Hres.
  destruct (registered_later w w1 ctx d rm Hwf Hrm (rtc_refl _ _))
    as ([_ _ N] & Hin & Hp).
  pose proof (rootModuleByPath_unique _ _ _ N Hin Hp) as Hfound.
  assert (Hmode : syncLoading (rmm w) = true /\
                  (loadOutcome (env w) ctx (newEntity w (Clean d))).2 = Some e).
  { revert Hres. unfold result.
    destruct (rootModuleByPath w (Clean d)) as [r|] eqn:Hf.
    { rewrite (Add_registered _ _ _ _ Hf). discriminate. }
    destruct (discovery w (Clean d)).2 as [e'|] eqn:He.
    { rewrite (Add_factory_error _ _ _ _ Hf He). discriminate. }
    destruct (syncLoading (rmm w)) eqn:Hs.
    - rewrite (Add_sync _ _ _ Hf He Hs). cbn [fst]. intros [= _ ->]. now split.
    - rewrite (Add_async _ _ _ Hf He Hs). discriminate. }
  destruct Hmode as [Hs Hl]. split; [exact Hs|]. split; [exact Hl|]. split.
  - unfold RootModuleByPath. now rewrite Hfound.
  - intros ctx'. now apply (Add_registered ctx' d w1 rm).
Qed.

(** *** [InitAndUpdateRootModule] *)

Lemma alter_valid (h : list rootModule) (l : loc) (f : rootModule -> rootModule) :
  l < length h ->
  alter f l h = <[l := f (default zeroRootModule (h !! l))]> h.
Proof.
  intros Hl. apply list_eq. intros k.
  destruct (decide (l = k)) as [->|Hne].
  - rewrite list_lookup_alter_eq, list_lookup_insert_eq by exact Hl.
    destruct (h !! k) eqn:E; [reflexivity|].
    apply lookup_ge_None in E. lia.
  - now rewrite list_lookup_alter_ne, list_lookup_insert_ne.
Qed.

Lemma lookup_insert_default (h : list rootModule) (l : loc) (x : rootModule) :
  l < length h -> default zeroRootModule (<[l := x]> h !! l) = x.
Proof. intros Hl. now rewrite list_lookup_insert_eq. Qed.

Lemma alter_alter_same {A : Type} (f g : A -> A) (l : list A) (i : nat) :
  alter f i (alter g i l) = alter (f ∘ g) i l.
Proof.
  apply list_eq. intros k. destruct (decide (i = k)) as [->|Hne].
  - rewrite !list_lookup_alter_eq. now destruct (l !! k).
  - now rewrite !list_lookup_alter_ne.
Qed.

Lemma alter_set_state (a b : rmState) (l : loc) (h : list rootModule) :
  alter (set_state a) l (alter (set_state b) l h) = alter (set_state a) l h.
Proof. rewrite alter_alter_same. now apply list_alter_ext. Qed.

(** The root found, after the init command, after cache discovery (on the
    directory as the caller gave it) and after the refresh of the schema
    cache. *)
Definition afterInit (w : world) (ctx : context) (rm : loc) : rootModule :=
  set_state (initOutcome (env w) ctx (deref w rm)).1.2 (deref w rm).

Definition afterDiscovery (w : world) (ctx : context) (dir : string) (rm : loc)
  : rootModule :=
  set_state
    (discoverCachesOutcome (initOutcome (env w) ctx (deref w rm)).1.1 dir
                           (afterInit w ctx rm)).1
    (afterInit w ctx rm).

Definition schemaRefresh (w : world) (ctx : context) (dir : string) (rm : loc)
  : rmState * option error :=
  schemaCacheOutcome (initOutcome (env w) ctx (deref w rm)).1.1 ctx
                     (afterDiscovery w ctx dir rm).

Lemma InitAndUpdate_missing (ctx : context) (dir : string) (w : world) (e : error) :
  (RootModuleByPath w dir).2 = Some e ->
  InitAndUpdateRootModule ctx dir w =
  ((None, Some (ErrFailedToGetRootModule e)), w).
Proof.
  intros H. unfold InitAndUpdateRootModule.
  unfold mbind at 1, M_bind at 1, gets at 1.
  destruct (RootModuleByPath w dir) as [rm err]. cbn in H. now subst err.
Qed.

Lemma InitAndUpdate_found (ctx : context) (dir : string) (w : world) (rm : loc) :
  RootModuleByPath w dir = (Some rm, None) ->
  rm < length (heap w) ->
  InitAndUpdateRootModule ctx dir w =
  match (initOutcome (env w) ctx (deref w rm)).2 with
  | Some e =>
      ((None, Some (ErrFailedToInit e)),
       mkWorld (<[rm := afterInit w ctx rm]> (heap w)) (rmm w)
               (initOutcome (env w) ctx (deref w rm)).1.1 (trace w))
  | None =>
      ((Some rm, (schemaRefresh w ctx dir rm).2),
       mkWorld
         (<[rm := set_state (schemaRefresh w ctx dir rm).1
                            (afterDiscovery w ctx dir rm)]> (heap w))
         (rmm w)
         (initOutcome (env w) ctx (deref w rm)).1.1 (trace w))
  end.
Proof.
  intros H Hl. unfold InitAndUpdateRootModule.
  unfold mbind at 1, M_bind at 1, gets at 1. rewrite H.
  unfold schemaRefresh, afterDiscovery, afterInit.
  unfold rm_ExecuteTerraformInit, rm_discoverCaches,
    rm_UpdateProviderSchemaCache.
  run.
  rewrite (alter_valid (heap w)) by exact Hl. fold (deref w rm).
  destruct (initOutcome (env w) ctx (deref w rm)) as [[e1 st1] [err|]];
    cbn [fst snd heap rmm env trace]; [reflexivity|].
  unfold deref. cbn [heap].
  repeat first
    [ rewrite lookup_insert_default by (now rewrite ?length_insert)
    | rewrite (alter_valid (<[rm:=_]> _)) by (now rewrite !length_insert)
    | rewrite list_insert_insert_eq ].
  reflexivity.
Qed.

(** X13: [InitAndUpdateRootModule], outcome by outcome.  For a path no
    lookup resolves, it returns the lookup's not-found error, wrapped, and
    changes nothing.  When the init command fails, it returns no root and the
    wrapped error, and the caches are not discovered again.  When the init
    command succeeds, it returns the root, with the error of the refresh of
    the schema cache beside it if that fails; the cache discovery in between
    is run on the directory as the caller gave it and its error is dropped. *)
Theorem InitAndUpdateRootModule_outcomes
    (w : world) (ctx : context) (dir : string) :
  wf w ->
  let res := result (InitAndUpdateRootModule ctx dir) w in
  let w1 := after (InitAndUpdateRootModule ctx dir) w in
  match RootModuleByPath w dir with
  | (Some rm, _) =>
      match (initOutcome (env w) ctx (deref w rm)).2 with
      | Some e =>
          res = (None, Some (ErrFailedToInit e)) /\
          deref w1 rm = afterInit w ctx rm
      | None =>
          res = (Some rm, (schemaRefresh w ctx dir rm).2) /\
          deref w1 rm = set_state (schemaRefresh w ctx dir rm).1
                                  (afterDiscovery w ctx dir rm)
      end /\
      env w1 = (initOutcome (env w) ctx (deref w rm)).1.1
  | (None, _) =>
      res = (None, Some (ErrFailedToGetRootModule
                           (RootModuleNotFoundErr (Clean dir)))) /\
      w1 = w
  end.
Proof.
  intros [V _ _] res w1. unfold res, w1, result, after. clear res w1.
  destruct (RootModuleByPath_answers w dir)
    as [(rm & E & Hin & _) | (E & _ & _)]; rewrite E.
  - assert (Hl : rm < length (heap w)).
    { rewrite Forall_forall in V. now apply V. }
    rewrite (InitAndUpdate_found ctx dir w rm E Hl).
    destruct (initOutcome (env w) ctx (deref w rm)).2; cbn [fst snd env];
      (split; [split; [reflexivity|] | reflexivity]);
      unfold deref at 1; cbn [heap]; now apply lookup_insert_default.
  - rewrite (InitAndUpdate_missing ctx dir w (RootModuleNotFoundErr (Clean dir)))
      by now rewrite E.
    now split.
Qed.

Lemma RootModuleByPath_paths (w w' : world) (p : string) :
  rms (rmm w') = rms (rmm w) ->
  (forall l, Path (deref w' l) = Path (deref w l)) ->
  RootModuleByPath w' p = RootModuleByPath w p.
Proof.
  intros Hr Hp. unfold RootModuleByPath.
  now rewrite !(rootModuleByPath_heap w w') by (try exact Hr; intros; apply Hp).
Qed.

(** All that [InitAndUpdateRootModule] can change: the outside world and
    the root found for the directory, which keeps its seed. *)
Lemma InitAndUpdate_shape (ctx : context) (dir : string) (w : world) :
  exists (f : rootModule -> rootModule) (e' : Env) (l : loc),
    (forall x, same_seed x (f x)) /\
    ((RootModuleByPath w dir).1 = None -> f = id) /\
    ((RootModuleByPath w dir).1 = Some l \/ (RootModuleByPath w dir).1 = None) /\
    after (InitAndUpdateRootModule ctx dir) w =
    mkWorld (alter f l (heap w)) (rmm w) e' (trace w).
Proof.
  unfold after, InitAndUpdateRootModule.
  unfold mbind at 1, M_bind at 1, gets at 1.
  destruct (RootModuleByPath w dir) as [[rm|] [e|]]; cbn [fst snd].
  - exists id, (env w), rm. split; [intros x; apply same_seed_refl|].
    split; [reflexivity|]. split; [now left|].
    rewrite list_alter_id by reflexivity. now destruct w.
  - unfold rm_ExecuteTerraformInit, rm_discoverCaches,
      rm_UpdateProviderSchemaCache. run.
    destruct (initOutcome (env w) ctx (deref w rm)) as [[e1 st1] [err|]];
      cbn [fst snd].
    + exists (set_state st1), e1, rm. split; [intros x; repeat split|].
      split; [discriminate|]. split; [now left | reflexivity].
    + eexists (set_state _), e1, rm. split; [intros x; repeat split|].
      split; [discriminate|]. split; [now left|].
      cbn [heap rmm env trace]. rewrite !alter_set_state. reflexivity.
  - exists id, (env w), 0. split; [intros x; apply same_seed_refl|].
    split; [reflexivity|]. split; [now right|].
    rewrite list_alter_id by reflexivity. now destruct w.
  - exists id, (env w), 0. split; [intros x; apply same_seed_refl|].
    split; [reflexivity|]. split; [now right|].
    rewrite list_alter_id by reflexivity. now destruct w.
Qed.

Lemma Path_alter_seed (h : list rootModule) (f : rootModule -> rootModule)
      (l k : loc) :
  (forall x, same_seed x (f x)) ->
  Path (default zeroRootModule (alter f l h !! k)) =
  Path (default zeroRootModule (h !! k)).
Proof.
  intros Hf. destruct (decide (l = k)) as [->|Hne].
  - rewrite list_lookup_alter_eq. destruct (h !! k) as [x|]; [|reflexivity].
    cbn. unfold Path. apply Hf.
  - now rewrite list_lookup_alter_ne.
Qed.

(** X14: [InitAndUpdateRootModule] registers nothing, unregisters nothing
    and writes no log: the manager (root list, pool, defaults) and the log are
    as before, no root module is created, only the root found for the
    directory can change, and it keeps its path and toolchain settings.  So
    every lookup by path answers as before the call. *)
Theorem InitAndUpdateRootModule_frame
    (ctx : context) (dir : string) (w : world) :
  let w1 := after (InitAndUpdateRootModule ctx dir) w in
  rmm w1 = rmm w /\ trace w1 = trace w /\
  length (heap w1) = length (heap w) /\
  (forall l, (RootModuleByPath w dir).1 <> Some l ->
             heap w1 !! l = heap w !! l) /\
  (forall l x, heap w !! l = Some x ->
               exists x', heap w1 !! l = Some x' /\ same_seed x x') /\
  ListRootModules w1 = ListRootModules w /\
  (forall p, RootModuleByPath w1 p = RootModuleByPath w p).
Proof.
  intros w1. unfold w1. clear w1.
  destruct (InitAndUpdate_shape ctx dir w) as (f & e' & l & Hf & Hid & Hl & ->).
  cbn [heap rmm env trace].
  split; [reflexivity|]. split; [reflexivity|].
  split; [apply length_alter|]. split; [|split; [|split]].
  - intros k Hk. destruct Hl as [Hl|Hl].
    + rewrite list_lookup_alter_ne; [reflexivity|]. intros ->. now rewrite Hl in Hk.
    + rewrite (Hid Hl). now rewrite list_alter_id.
  - intros k x Hx. destruct (decide (l = k)) as [->|Hne].
    + exists (f x). split; [|apply Hf]. now rewrite list_lookup_alter_eq, Hx.
    + exists x. split; [|apply same_seed_refl].
      now rewrite list_lookup_alter_ne.
  - now rewrite !ListRootModules_eq.
  - intros p. apply RootModuleByPath_paths; [reflexivity|].
    intros k. unfold deref. cbn [heap]. now apply Path_alter_seed.
Qed.

(** *** Registered paths are cleaned paths *)

(** One step leaves the root list as it is, or appends one root whose path
    is a cleaned path. *)
Lemma step_registry (a b : world) :
  step a b ->
  rms (rmm b) = rms (rmm a) \/
  exists d rm, rms (rmm b) = rms (rmm a) ++ [rm] /\
               Path (deref b rm) = Clean d.
Proof.
  intros [ctx dir w|path w|w|path w|logPath w|timeout w|ctx dir w|i w|e w|e w].
  - destruct (result (AddAndStartLoadingRootModule ctx dir) w).1 as [rm|] eqn:E.
    + right. exists dir, rm.
      destruct (Add_registers _ _ _ _ E) as (_ & _ & Hr & x & Hx & Hs & _).
      split; [exact Hr|]. rewrite (deref_lookup _ _ _ Hx). exact Hs.
    + left. revert E. unfold result, after.
      destruct (rootModuleByPath w (Clean dir)) as [r|] eqn:Hf.
      { now rewrite (Add_registered _ _ _ _ Hf). }
      destruct (discovery w (Clean dir)).2 as [e|] eqn:He.
      { now rewrite (Add_factory_error _ _ _ _ Hf He). }
      destruct (syncLoading (rmm w)) eqn:Hs.
      * rewrite (Add_sync _ _ _ Hf He Hs). discriminate.
      * rewrite (Add_async _ _ _ Hf He Hs). discriminate.
  - left. unfold after. now rewrite SchemaForPath_eq.
  - left. unfold after. now rewrite CancelLoading_eq.
  - now left.
  - now left.
  - now left.
  - left. destruct (InitAndUpdate_shape ctx dir w) as (f & e' & l & _ & _ & _ & ->).
    reflexivity.
  - left. unfold after, workerPool_run, loadTask, rm_load, rm_setLoadErr. run.
    destruct (waitingQueue (pool (rmm w)) !! i); [|reflexivity].
    now destruct (stopped (pool (rmm w))).
  - now left.
  - now left.
Qed.

(** Every registered path is a path [Clean] returned. *)
Definition cleaned (w : world) : Prop :=
  Forall (fun rm => exists d, Path (deref w rm) = Clean d) (rms (rmm w)).

Lemma step_cleaned (w w' : world) :
  step w w' -> wf w -> cleaned w -> cleaned w'.
Proof.
  intros Hstep [V _ _] Hc. pose proof (step_evolves _ _ Hstep) as [Hh _ _].
  assert (Hold : Forall (fun rm => exists d, Path (deref w' rm) = Clean d)
                        (rms (rmm w))).
  { unfold cleaned in Hc. rewrite Forall_forall in *. intros rm Hrm.
    destruct (Hc rm Hrm) as [d Hd]. exists d. rewrite <- Hd.
    destruct (Hh rm _ (lookup_valid w rm (V rm Hrm))) as (x' & Hx' & Hs & _).
    rewrite (deref_lookup _ _ _ Hx'). exact Hs. }
  unfold cleaned.
  destruct (step_registry _ _ Hstep) as [->|(d & rm & -> & Hp)]; [exact Hold|].
  apply Forall_app. split; [exact Hold|].
  apply Forall_singleton. now exists d.
Qed.

Lemma steps_cleaned (w w' : world) :
  steps w w' -> wf w -> cleaned w -> wf w' /\ cleaned w'.
Proof.
  induction 1 as [|a b c Hab _ IH]; [now split|].
  intros Hwf Hc. apply IH.
  - exact (ev_wf _ _ (step_evolves _ _ Hab) Hwf).
  - now apply (step_cleaned a b).
Qed.

Section CleanedRegistry.

Hypothesis Clean_idempotent : forall p, Clean (Clean p) = Clean p.

(** X15: in every state the program reaches from a new manager, every
    listed root has a cleaned path and is the root a lookup of its own path
    returns. *)
Theorem listed_roots_are_found (e : Env) (w : world) (rm : loc) :
  steps (newRootModuleManager e) w ->
  rm ∈ ListRootModules w ->
  Clean (Path (deref w rm)) = Path (deref w rm) /\
  RootModuleByPath w (Path (deref w rm)) = (Some rm, None).
Proof.
  intros Hs Hin. rewrite ListRootModules_eq in Hin.
  destruct (steps_cleaned _ _ Hs (wf_new e)) as [[_ _ N] Hc];
    [constructor|].
  unfold cleaned in Hc. rewrite Forall_forall in Hc.
  destruct (Hc rm Hin) as [d Hd].
  assert (Hclean : Clean (Path (deref w rm)) = Path (deref w rm))
    by now rewrite Hd, Clean_idempotent.
  split; [exact Hclean|].
  unfold RootModuleByPath. rewrite Hclean.
  now rewrite (rootModuleByPath_unique w _ rm N Hin).
Qed.

End CleanedRegistry.

(** *** An empty registry *)

(** X16: a manager without roots, which every new manager is, knows no
    path: every lookup fails with the not-found error for the cleaned path,
    [SchemaForPath] returns that error and logs nothing,
    [InitAndUpdateRootModule] returns it wrapped and changes nothing, and
    [CancelLoading] only stops the pool. *)
Theorem empty_registry_knows_no_path
    (w : world) (ctx : context) (p : string) :
  rms (rmm w) = [] ->
  ListRootModules w = [] /\
  RootModuleByPath w p = (None, Some (RootModuleNotFoundErr (Clean p))) /\
  RootModuleCandidatesByPath w p = [] /\
  SchemaForPath p w = ((None, Some (RootModuleNotFoundErr (Clean p))), w) /\
  InitAndUpdateRootModule ctx p w =
    ((None, Some (ErrFailedToGetRootModule (RootModuleNotFoundErr (Clean p)))),
     w) /\
  CancelLoading w =
    (tt, mkWorld (heap w) (with_pool (mkPool [] true) (rmm w)) (env w)
                 (trace w ++ [EvPoolStop])).
Proof.
  intros He.
  assert (Hby : RootModuleByPath w p =
                (None, Some (RootModuleNotFoundErr (Clean p)))).
  { unfold RootModuleByPath, rootModuleByPath. now rewrite He. }
  assert (Hc : RootModuleCandidatesByPath w p = []).
  { unfold RootModuleCandidatesByPath, rootModuleByPath. now rewrite He. }
  split; [now rewrite ListRootModules_eq|]. split; [exact Hby|].
  split; [exact Hc|]. split; [|split].
  - rewrite SchemaForPath_eq, Hc, Hby. cbn [schemaScan fst snd].
    unfold with_trace. rewrite app_nil_r. now destruct w.
  - apply InitAndUpdate_missing. now rewrite Hby.
  - rewrite CancelLoading_eq, He. reflexivity.
Qed.

(** ** Callers and the other queries *)

(** Modelled from the spec: [IsRootModuleNotFound] (not part of the
    sources) recognises the error of a lookup for an unregistered path. *)
Definition IsRootModuleNotFound (err : error) : bool :=
  match err with
  | RootModuleNotFoundErr _ => true
  | _ => false
  end.

(** What [TextDocumentDidOpen] (langserver/handlers) does to get the root
    module of the opened file's directory: it looks the directory up and, when
    the lookup reports that no root is there, registers it; any error ends the
    handler, which then has no root. *)
Definition TextDocumentDidOpen_rootModule (ctx : context) (dir : string)
  : M (option loc * option error) :=
  '(rm, err) ← gets (fun w => RootModuleByPath w dir);
  match err with
  | Some e =>
      if IsRootModuleNotFound e then
        '(rm, err) ← AddAndStartLoadingRootModule ctx dir;
        match err with
        | Some e' => mret (None, Some e')
        | None => mret (rm, None)
        end
      else mret (None, Some e)
  | None => mret (rm, None)
  end.

Lemma DidOpen_found (ctx : context) (dir : string) (w : world) (rm : loc) :
  RootModuleByPath w dir = (Some rm, None) ->
  TextDocumentDidOpen_rootModule ctx dir w = ((Some rm, None), w).
Proof.
  intros H. unfold TextDocumentDidOpen_rootModule.
  unfold mbind at 1, M_bind at 1, gets at 1. now rewrite H.
Qed.

Lemma DidOpen_missing (ctx : context) (dir : string) (w : world) :
  RootModuleByPath w dir = (None, Some (RootModuleNotFoundErr (Clean dir))) ->
  TextDocumentDidOpen_rootModule ctx dir w =
  (match (result (AddAndStartLoadingRootModule ctx dir) w).2 with
   | Some e' => (None, Some e')
   | None => ((result (AddAndStartLoadingRootModule ctx dir) w).1, None)
   end,
   after (AddAndStartLoadingRootModule ctx dir) w).
Proof.
  intros H. unfold TextDocumentDidOpen_rootModule, result, after.
  unfold mbind at 1, M_bind at 1, gets at 1. rewrite H. cbn [IsRootModuleNotFound].
  unfold mbind, M_bind.
  destruct (AddAndStartLoadingRootModule ctx dir w) as [[rm [e|]] w1];
    reflexivity.
Qed.

(** A root found at a path is found there in every later state. *)
Lemma rootModuleByPath_persists (w w' : world) (dir : string) (rm : loc) :
  evolves w w' -> wf w ->
  rootModuleByPath w dir = Some rm -> rootModuleByPath w' dir = Some rm.
Proof.
  intros Hev Hwf Hf. apply rootModuleByPath_Some in Hf as [Hin Hp].
  assert (Hl : rm < length (heap w)).
  { destruct Hwf as [V _ _]. rewrite Forall_forall in V. now apply V. }
  destruct (registered_persists _ _ _ _ Hev Hin (lookup_valid w rm Hl))
    as (Hin' & x' & Hx' & Hs & _).
  destruct (ev_wf _ _ Hev Hwf) as [_ _ N].
  apply rootModuleByPath_unique; [exact N | exact Hin'|].
  rewrite (deref_lookup _ _ _ Hx'). unfold Path in *. congruence.
Qed.

Lemma lookup_persists (w w' : world) (p : string) (rm : loc) :
  evolves w w' -> wf w ->
  RootModuleByPath w p = (Some rm, None) ->
  exists rm', RootModuleByPath w' p = (Some rm', None) /\
              (Path (deref w rm) = Clean p -> rm' = rm).
Proof.
  intros Hev Hwf. unfold RootModuleByPath.
  destruct (rootModuleByPath w (Clean p)) as [r|] eqn:E1.
  { intros [= <-]. exists r.
    now rewrite (rootModuleByPath_persists _ _ _ _ Hev Hwf E1). }
  destruct (rootModuleByPath w (trimLockFilePath (Clean p))) as [r|] eqn:E2;
    [|discriminate].
  intros [= <-]. apply rootModuleByPath_None in E1.
  destruct (rootModuleByPath w' (Clean p)) as [r'|] eqn:E1'.
  - exists r'. split; [reflexivity|]. intros Hp. exfalso. apply E1.
    apply rootModuleByPath_Some in E2 as [Hin _]. rewrite <- Hp.
    apply list_elem_of_fmap. now exists r.
  - exists r. now rewrite (rootModuleByPath_persists _ _ _ _ Hev Hwf E2).
Qed.

(** X23: a path that resolves keeps resolving.  When a lookup returns a
    root, then after any steps of the program the lookup of the same path
    still returns a root and no error: the same root when it is registered at
    the cleaned path, and otherwise that root or a root registered at the
    cleaned path in between. *)
Theorem resolved_paths_stay_resolved
    (w w' : world) (p : string) (rm : loc) :
  wf w -> steps w w' ->
  RootModuleByPath w p = (Some rm, None) ->
  exists rm',
    RootModuleByPath w' p = (Some rm', None) /\
    (Path (deref w rm) = Clean p -> rm' = rm) /\
    (rm' = rm \/ Path (deref w' rm') = Clean p).
Proof.
  intros Hwf Hsteps Hby. pose proof (steps_evolves _ _ Hsteps) as Hev.
  destruct (lookup_persists w w' p rm Hev Hwf Hby) as (rm' & Hby' & Hsame).
  exists rm'. split; [exact Hby'|]. split; [exact Hsame|].
  revert Hby Hby'. unfold RootModuleByPath.
  destruct (rootModuleByPath w' (Clean p)) as [r'|] eqn:E1'.
  { intros _ [= <-]. right. now apply rootModuleByPath_Some in E1' as [_ ?]. }
  destruct (rootModuleByPath w (Clean p)) as [r|] eqn:E1.
  { rewrite (rootModuleByPath_persists _ _ _ _ Hev Hwf E1) in E1'.
    discriminate. }
  destruct (rootModuleByPath w (trimLockFilePath (Clean p))) as [r|] eqn:E2;
    [|discriminate].
  rewrite (rootModuleByPath_persists _ _ _ _ Hev Hwf E2).
  intros [= <-] [= <-]. now left.
Qed.

(** X17: opening a directory again registers nothing.  Once the handler
    has got a root for a directory, by lookup or by registering it, then in
    every later state the handler gets a root for a directory with the same
    cleaned path without changing anything; it is the same root when that
    root is registered at the cleaned path. *)
Theorem reopening_registers_nothing
    (w w2 : world) (ctx ctx' : context) (dir dir' : string) (rm : loc) :
  wf w ->
  result (TextDocumentDidOpen_rootModule ctx dir) w = (Some rm, None) ->
  steps (after (TextDocumentDidOpen_rootModule ctx dir) w) w2 ->
  Clean dir' = Clean dir ->
  exists rm',
    TextDocumentDidOpen_rootModule ctx' dir' w2 = ((Some rm', None), w2) /\
    (Path (deref (after (TextDocumentDidOpen_rootModule ctx dir) w) rm)
       = Clean dir -> rm' = rm).
Proof.
  intros Hwf Hres Hsteps Hd.
  set (w1 := after (TextDocumentDidOpen_rootModule ctx dir) w) in *.
  assert (H1 : wf w1 /\ RootModuleByPath w1 dir = (Some rm, None)).
  { revert Hres. unfold w1, result, after.
    destruct (RootModuleByPath_answers w dir)
      as [(r & E & _) | (E & _ & _)].
    - rewrite (DidOpen_found ctx dir w r E). cbn [fst snd].
      intros [= <-]. now split.
    - rewrite (DidOpen_missing ctx dir w E). cbn [fst snd].
      destruct (result (AddAndStartLoadingRootModule ctx dir) w) as [r e]
        eqn:Er.
      destruct e as [e|]; [discriminate|]. cbn [fst snd]. intros [= ->].
      assert (Hr : (result (AddAndStartLoadingRootModule ctx dir) w).1 = Some rm)
        by now rewrite Er.
      destruct (registered_later w _ ctx dir rm Hwf Hr (rtc_refl _ _))
        as (Hwf1 & Hin & Hp).
      split; [exact Hwf1|]. unfold RootModuleByPath.
      destruct Hwf1 as [_ _ N].
      now rewrite (rootModuleByPath_unique _ _ _ N Hin Hp). }
  destruct H1 as [Hwf1 Hby1].
  destruct (lookup_persists w1 w2 dir rm (steps_evolves _ _ Hsteps) Hwf1 Hby1)
    as (rm' & Hby2 & Hsame).
  exists rm'. split; [|exact Hsame].
  apply DidOpen_found. unfold RootModuleByPath in *. now rewrite Hd.
Qed.

Section RootModuleQueries.

(** What a root entity reports about itself (root_module.go is not part of
    the sources), and the toolchain collaborators of
    [newTerraformFormatter]: the discovery function and the executor factory
    the manager holds, and the executor's interface. *)
Variable rm_IsProviderSchemaLoaded : rootModule -> bool.
Variable rm_IsTerraformAvailable : rootModule -> bool.
Variable rm_HasTerraformDiscoveryFinished : rootModule -> bool.
Variable rm_PathsToWatch : rootModule -> list string.

Variable Executor : Type.               (* *exec.Executor *)
Variable Formatter : Type.              (* exec.Formatter *)
Variable rm_TerraformFormatter : rootModule -> option Formatter * option error.
Variable tfDiscoFunc : Env -> string * option error.
Variable tfNewExecutor : Env -> string -> string -> Executor * option error.
Variable ex_SetLogger : Executor -> Executor.
Variable ex_SetExecLogPath : string -> Executor -> Executor.
Variable ex_SetTimeout : Z -> Executor -> Executor.
Variable ex_Version : Env -> context -> Executor -> string * option error.
Variable ex_GetExecPath : Executor -> string.
Variable ex_Format : Executor -> Formatter.

Definition IsProviderSchemaLoaded (w : world) (path : string)
  : bool * option error :=
  match RootModuleByPath w path with
  | (_, Some err) => (false, Some err)
  | (Some rm, None) => (rm_IsProviderSchemaLoaded (deref w rm), None)
  | (None, None) => (rm_IsProviderSchemaLoaded zeroRootModule, None)
  end.

Definition IsTerraformAvailable (w : world) (path : string)
  : bool * option error :=
  match RootModuleByPath w path with
  | (_, Some err) => (false, Some err)
  | (Some rm, None) => (rm_IsTerraformAvailable (deref w rm), None)
  | (None, None) => (rm_IsTerraformAvailable zeroRootModule, None)
  end.

Definition HasTerraformDiscoveryFinished (w : world) (path : string)
  : bool * option error :=
  match RootModuleByPath w path with
  | (_, Some err) => (false, Some err)
  | (Some rm, None) => (rm_HasTerraformDiscoveryFinished (deref w rm), None)
  | (None, None) => (rm_HasTerraformDiscoveryFinished zeroRootModule, None)
  end.

Definition PathsToWatch (w : world) : list string :=
  let paths := [] in
  fold_left
    (fun paths rm =>
       let ptw := rm_PathsToWatch (deref w rm) in
       if 0 <? length ptw then paths ++ ptw else paths)
    (rms (rmm w)) paths.

(** The line [newTerraformFormatter] writes to the manager's log. *)
Inductive formatterLog : Type :=
| LogVersionFound (version execPath : string).

(** [newTerraformFormatter]: the result and what is logged.  The executor
    is created for the pinned path, or for the path discovery returns when
    none is pinned. *)
Definition newTerraformFormatter (ctx : context) (workDir : string) (w : world)
  : (option Formatter * option error) * list formatterLog :=
  let tfPath := tfExecPath (rmm w) in
  let '(tfPath, err) :=
    if String.eqb tfPath EmptyString then tfDiscoFunc (env w)
    else (tfPath, None) in
  match err with
  | Some err => ((None, Some err), [])
  | None =>
      let '(tf, err) := tfNewExecutor (env w) workDir tfPath in
      match err with
      | Some err => ((None, Some err), [])
      | None =>
          let tf := ex_SetLogger tf in
          let tf :=
            if negb (String.eqb (tfExecLogPath (rmm w)) EmptyString)
            then ex_SetExecLogPath (tfExecLogPath (rmm w)) tf else tf in
          let tf :=
            if negb (tfExecTimeout (rmm w) =? 0)%Z
            then ex_SetTimeout (tfExecTimeout (rmm w)) tf else tf in
          let '(version, err) := ex_Version (env w) ctx tf in
          match err with
          | Some err => ((None, Some err), [])
          | None =>
              ((Some (ex_Format tf), None),
               [LogVersionFound version (ex_GetExecPath tf)])
          end
      end
  end.

Definition TerraformFormatterForDir (ctx : context) (path : string) (w : world)
  : (option Formatter * option error) * list formatterLog :=
  match RootModuleByPath w path with
  | (_, Some err) =>
      if IsRootModuleNotFound err then newTerraformFormatter ctx path w
      else ((None, Some err), [])
  | (Some rm, None) => (rm_TerraformFormatter (deref w rm), [])
  | (None, None) => (rm_TerraformFormatter zeroRootModule, [])
  end.

(** X18: the three status queries answer for the root that
    [RootModuleByPath] finds, a registered root, with no error; when it finds
    none, all three answer false with its not-found error for the cleaned
    path. *)
Theorem status_queries_follow_the_lookup (w : world) (p : string) :
  (exists rm,
     RootModuleByPath w p = (Some rm, None) /\ rm ∈ rms (rmm w) /\
     IsProviderSchemaLoaded w p =
       (rm_IsProviderSchemaLoaded (deref w rm), None) /\
     IsTerraformAvailable w p =
       (rm_IsTerraformAvailable (deref w rm), None) /\
     HasTerraformDiscoveryFinished w p =
       (rm_HasTerraformDiscoveryFinished (deref w rm), None)) \/
  (RootModuleByPath w p = (None, Some (RootModuleNotFoundErr (Clean p))) /\
   IsProviderSchemaLoaded w p =
     (false, Some (RootModuleNotFoundErr (Clean p))) /\
   IsTerraformAvailable w p =
     (false, Some (RootModuleNotFoundErr (Clean p))) /\
   HasTerraformDiscoveryFinished w p =
     (false, Some (RootModuleNotFoundErr (Clean p)))).
Proof.
  unfold IsProviderSchemaLoaded, IsTerraformAvailable,
    HasTerraformDiscoveryFinished.
  destruct (RootModuleByPath_answers w p)
    as [(rm & E & Hin & _) | (E & _ & _)]; rewrite E.
  - left. exists rm. now repeat split.
  - right. now repeat split.
Qed.

Lemma PathsToWatch_loop (w : world) (l : list loc) (init : list string) :
  fold_left
    (fun paths rm =>
       let ptw := rm_PathsToWatch (deref w rm) in
       if 0 <? length ptw then paths ++ ptw else paths) l init =
  init ++ flat_map (fun rm => rm_PathsToWatch (deref w rm)) l.
Proof.
  revert init. induction l as [|rm l IH]; intros init; cbn [fold_left flat_map].
  - now rewrite app_nil_r.
  - rewrite IH. destruct (rm_PathsToWatch (deref w rm)) as [|x ptw];
      cbn [length Nat.ltb Nat.leb app].
    + reflexivity.
    + now rewrite <- app_assoc.
Qed.

(** X19: [PathsToWatch] is the paths to watch of the listed roots, root
    after root in registration order; a path is returned exactly when a
    registered root reports it.  The test for an empty list changes
    nothing. *)
Theorem PathsToWatch_collects (w : world) :
  PathsToWatch w =
    flat_map (fun rm => rm_PathsToWatch (deref w rm)) (ListRootModules w) /\
  forall p, p ∈ PathsToWatch w <->
            exists rm, rm ∈ rms (rmm w) /\ p ∈ rm_PathsToWatch (deref w rm).
Proof.
  assert (H : PathsToWatch w =
              flat_map (fun rm => rm_PathsToWatch (deref w rm)) (rms (rmm w))).
  { unfold PathsToWatch. now rewrite PathsToWatch_loop. }
  split; [now rewrite ListRootModules_eq|].
  intros p. rewrite H, list_elem_of_In, in_flat_map. split.
  - intros (rm & Hin & Hp). exists rm.
    split; now apply list_elem_of_In.
  - intros (rm & Hin & Hp). exists rm.
    split; now apply list_elem_of_In.
Qed.

(** X20: [TerraformFormatterForDir] never returns the error of its lookup.
    For a path the lookup resolves it returns the formatter of the root
    found and logs nothing, whatever the manager's defaults are set to
    afterwards; for every other path it returns what [newTerraformFormatter]
    builds for the path as given. *)
Theorem TerraformFormatterForDir_falls_back
    (w : world) (ctx : context) (p : string) :
  (exists rm,
     RootModuleByPath w p = (Some rm, None) /\ rm ∈ rms (rmm w) /\
     TerraformFormatterForDir ctx p w =
       (rm_TerraformFormatter (deref w rm), []) /\
     (forall path,
        TerraformFormatterForDir ctx p (after (SetTerraformExecPath path) w) =
        TerraformFormatterForDir ctx p w) /\
     (forall timeout,
        TerraformFormatterForDir ctx p
          (after (SetTerraformExecTimeout timeout) w) =
        TerraformFormatterForDir ctx p w) /\
     (forall logPath,
        TerraformFormatterForDir ctx p
          (after (SetTerraformExecLogPath logPath) w) =
        TerraformFormatterForDir ctx p w)) \/
  (RootModuleByPath w p = (None, Some (RootModuleNotFoundErr (Clean p))) /\
   TerraformFormatterForDir ctx p w = newTerraformFormatter ctx p w).
Proof.
  destruct (RootModuleByPath_answers w p)
    as [(rm & E & Hin & _) | (E & _ & _)].
  - left. exists rm. split; [exact E|]. split; [exact Hin|].
    assert (Hset : forall m,
              TerraformFormatterForDir ctx p (with_rmm m w) =
              match RootModuleByPath (with_rmm m w) p with
              | (_, Some err) =>
                  if IsRootModuleNotFound err
                  then newTerraformFormatter ctx p (with_rmm m w)
                  else ((None, Some err), [])
              | (Some rm, None) => (rm_TerraformFormatter (deref w rm), [])
              | (None, None) => (rm_TerraformFormatter zeroRootModule, [])
              end) by reflexivity.
    unfold TerraformFormatterForDir at 1 3 5 7. rewrite E.
    split; [reflexivity|].
    split; [|split]; intros x; unfold after, SetTerraformExecPath,
      SetTerraformExecTimeout, SetTerraformExecLogPath, modify; cbn [snd];
      rewrite Hset;
      (replace (RootModuleByPath (with_rmm _ w) p) with (RootModuleByPath w p)
         by reflexivity);
      now rewrite E.
  - right. split; [exact E|]. unfold TerraformFormatterForDir. now rewrite E.
Qed.

End RootModuleQueries.

(** X21: with a pinned executable, the formatter for a directory without a
    root does not depend on discovery: whatever the discovery function would
    answer, the executor is created for the pinned path. *)
Theorem pinned_path_skips_discovery
    (Executor Formatter : Type)
    (rm_TerraformFormatter : rootModule -> option Formatter * option error)
    (tfDiscoFunc tfDiscoFunc' : Env -> string * option error)
    (tfNewExecutor : Env -> string -> string -> Executor * option error)
    (ex_SetLogger : Executor -> Executor)
    (ex_SetExecLogPath : string -> Executor -> Executor)
    (ex_SetTimeout : Z -> Executor -> Executor)
    (ex_Version : Env -> context -> Executor -> string * option error)
    (ex_GetExecPath : Executor -> string)
    (ex_Format : Executor -> Formatter)
    (w : world) (ctx : context) (p : string) :
  tfExecPath (rmm w) <> EmptyString ->
  TerraformFormatterForDir Executor Formatter rm_TerraformFormatter
    tfDiscoFunc tfNewExecutor ex_SetLogger ex_SetExecLogPath ex_SetTimeout
    ex_Version ex_GetExecPath ex_Format ctx p w =
  TerraformFormatterForDir Executor Formatter rm_TerraformFormatter
    tfDiscoFunc' tfNewExecutor ex_SetLogger ex_SetExecLogPath ex_SetTimeout
    ex_Version ex_GetExecPath ex_Format ctx p w.
Proof.
  intros Hpin. unfold TerraformFormatterForDir, newTerraformFormatter.
  apply String.eqb_neq in Hpin. now rewrite Hpin.
Qed.

End Manager.

(** The schema and environment types are read off the state a definition is
    applied to. *)
Arguments mkState {BodySchema}.
Arguments st_initialized {BodySchema}.
Arguments st_initErr {BodySchema}.
Arguments st_referencedModulePaths {BodySchema}.
Arguments st_mergedSchema {BodySchema}.
Arguments st_schemaErr {BodySchema}.
Arguments emptyState {BodySchema}.
Arguments rm_path {BodySchema}.
Arguments rm_state {BodySchema}.
Arguments rm_loadErr {BodySchema}.
Arguments rm_cancelled {BodySchema}.
Arguments rm_tfExecPath {BodySchema}.
Arguments rm_tfExecTimeout {BodySchema}.
Arguments rm_tfExecLogPath {BodySchema}.
Arguments Path {BodySchema}.
Arguments mkWorld {BodySchema Env}.
Arguments heap {BodySchema Env}.
Arguments rmm {BodySchema Env}.
Arguments env {BodySchema Env}.
Arguments trace {BodySchema Env}.
Arguments deref {BodySchema Env}.
Arguments result {BodySchema Env A}.
Arguments after {BodySchema Env A}.
Arguments with_env {BodySchema Env}.
Arguments with_trace {BodySchema Env}.
Arguments newRootModuleManager {BodySchema Env}.
Arguments registered_paths {BodySchema Env}.
Arguments rootsAt {BodySchema Env}.
Arguments referencingRoots {BodySchema Env}.
Arguments wf {BodySchema Env}.
Arguments CancelLoading {BodySchema Env}.
Arguments ListRootModules {BodySchema Env}.

(** ** Symbols for the client (internal/lsp) *)

Module Lsp.

Section ConvertSymbols.

(** The decoder's symbols and the protocol's types, as far as
    [ConvertSymbols] uses them. *)
Variable Symbol : Type.                 (* decoder.Symbol *)
Variable hclRange : Type.               (* hcl.Range *)
Variable lspRange : Type.               (* lsp.Range *)
Variable DocumentURI : Type.            (* lsp.DocumentURI *)
Variable SymbolKind : Type.             (* lsp.SymbolKind *)
Variable Name : Symbol -> string.
Variable Range : Symbol -> hclRange.
Variable HCLRangeToLSP : hclRange -> lspRange.
Variable Class : SymbolKind.            (* lsp.Class *)
Variable zeroURI : DocumentURI.
Variable zeroKind : SymbolKind.
Variable zeroRange : lspRange.

Record Location : Type := mkLocation {
  Location_URI : DocumentURI;
  Location_Range : lspRange
}.

Record SymbolInformation : Type := mkSymbolInformation {
  SymbolInformation_Name : string;
  SymbolInformation_Kind : SymbolKind;
  SymbolInformation_Location : Location
}.

(** What [make] fills a slice of [SymbolInformation] with. *)
Definition zeroSymbolInformation : SymbolInformation :=
  mkSymbolInformation EmptyString zeroKind (mkLocation zeroURI zeroRange).

(** [for i, x := range xs { body }], from index [i] on. *)
Fixpoint forRange {A St : Type} (body : nat -> A -> St -> St)
         (i : nat) (xs : list A) (s : St) : St :=
  match xs with
  | [] => s
  | x :: xs' => forRange body (S i) xs' (body i x s)
  end.

(** An assignment [symbols[i] = v] is an insertion at [i]; the index is
    always in range here, where Go would panic otherwise. *)
Definition ConvertSymbols (uri : DocumentURI) (sbs : list Symbol)
  : list SymbolInformation :=
  let symbols := replicate (length sbs) zeroSymbolInformation in
  forRange
    (fun i s symbols =>
       <[i := mkSymbolInformation (Name s) Class
                (mkLocation uri (HCLRangeToLSP (Range s)))]> symbols)
    0 sbs symbols.

Definition convertSymbol (uri : DocumentURI) (s : Symbol) : SymbolInformation :=
  mkSymbolInformation (Name s) Class (mkLocation uri (HCLRangeToLSP (Range s))).

Lemma forRange_fills (uri : DocumentURI) (done rest : list Symbol) :
  forRange
    (fun i s symbols => <[i := convertSymbol uri s]> symbols)
    (length done) rest
    (map (convertSymbol uri) done ++
     replicate (length rest) zeroSymbolInformation) =
  map (convertSymbol uri) (done ++ rest).
Proof.
  revert done. induction rest as [|s rest IH]; intros done.
  - cbn. now rewrite !app_nil_r.
  - cbn [forRange length replicate].
    replace (length done) with (length (map (convertSymbol uri) done) + 0)
      at 2 by (rewrite length_map; lia).
    rewrite insert_app_r. cbn [insert list_insert].
    specialize (IH (done ++ [s])).
    rewrite length_app, map_app, <- !app_assoc in IH. cbn in IH.
    replace (length done + 1) with (S (length done)) in IH by lia.
    exact IH.
Qed.

(** X22: [ConvertSymbols] returns one entry for each symbol, in the order
    of the symbols, with the symbol's name, the kind [Class], the converted
    range and the given URI; no entry is left at its zero value, and the
    result is as long as the input. *)
Theorem ConvertSymbols_converts_each (uri : DocumentURI) (sbs : list Symbol) :
  ConvertSymbols uri sbs =
    map (fun s => mkSymbolInformation (Name s) Class
                    (mkLocation uri (HCLRangeToLSP (Range s)))) sbs /\
  length (ConvertSymbols uri sbs) = length sbs /\
  forall i s, sbs !! i = Some s ->
    ConvertSymbols uri sbs !! i =
    Some (mkSymbolInformation (Name s) Class
            (mkLocation uri (HCLRangeToLSP (Range s)))).
Proof.
  assert (H : ConvertSymbols uri sbs = map (convertSymbol uri) sbs).
  { exact (forRange_fills uri [] sbs). }
  split; [exact H|]. rewrite H. split; [apply length_map|].
  intros i s Hs. change (map (convertSymbol uri) sbs) with (convertSymbol uri <$> sbs).
  now rewrite list_lookup_fmap, Hs.
Qed.

End ConvertSymbols.

End Lsp.

(** ** [Unix.Clean] returns a cleaned path *)

Module UnixFacts.
Import Unix.

(** An element holds no separator; a name is an element other than the
    empty one, [.] and [..]. *)
Fixpoint noSep (s : string) : bool :=
  match s with
  | EmptyString => true
  | String c rest => negb (Ascii.eqb c Separator) && noSep rest
  end.

Definition isName (e : string) : bool :=
  noSep e && negb (String.eqb e EmptyString) && negb (String.eqb e ".")
  && negb (String.eqb e "..").

Lemma elements_noSep (s : string) : Forall (fun e => noSep e = true) (elements s).
Proof.
  induction s as [|c s IH]; simpl.
  - repeat constructor.
  - destruct (Ascii.eqb c Separator) eqn:E.
    + constructor; [reflexivity | exact IH].
    + destruct (elements s) as [|e es].
      * repeat constructor. simpl. now rewrite E.
      * apply Forall_cons in IH as [He Hes]. constructor; [|exact Hes].
        simpl. now rewrite E, He.
Qed.

Lemma elements_single (e : string) : noSep e = true -> elements e = [e].
Proof.
  induction e as [|c e IH]; simpl; [reflexivity|].
  intros H. apply andb_true_iff in H as [Hc He].
  apply negb_true_iff in Hc. rewrite Hc, (IH He). reflexivity.
Qed.

Lemma elements_sep (e rest : string) :
  noSep e = true ->
  elements (e +:+ String Separator rest) = e :: elements rest.
Proof.
  induction e as [|c e IH]; intros H.
  - reflexivity.
  - simpl in H. apply andb_true_iff in H as [Hc He].
    apply negb_true_iff in Hc.
    change (String c e +:+ String Separator rest)
      with (String c (e +:+ String Separator rest)).
    cbn [elements]. rewrite Hc, (IH He). reflexivity.
Qed.

Lemma join_cons (e e' : string) (l : list string) :
  join (e :: e' :: l) = e +:+ String Separator (join (e' :: l)).
Proof. reflexivity. Qed.

Lemma elements_join (es : list string) :
  es <> [] -> Forall (fun e => noSep e = true) es -> elements (join es) = es.
Proof.
  induction es as [|e es IH]; intros Hne Hall; [contradiction|].
  apply Forall_cons in Hall as [He Hes].
  destruct es as [|e' es].
  - apply elements_single, He.
  - rewrite join_cons, elements_sep by exact He.
    f_equal. apply IH; [discriminate | exact Hes].
Qed.

Lemma rooted_join (e : string) (l : list string) :
  noSep e = true -> e <> EmptyString -> rooted (join (e :: l)) = false.
Proof.
  intros He Hne. destruct e as [|c e]; [contradiction|].
  simpl in He. apply andb_true_iff in He as [Hc _].
  apply negb_true_iff in Hc.
  destruct l as [|e' l]; [exact Hc|].
  rewrite join_cons. exact Hc.
Qed.

Lemma isName_noSep (e : string) : isName e = true -> noSep e = true.
Proof.
  unfold isName. intros H.
  now repeat (apply andb_true_iff in H as [H _]).
Qed.

Lemma cleanStep_name (root : bool) (kept : list string) (e : string) :
  isName e = true -> cleanStep root kept e = e :: kept.
Proof.
  unfold isName, cleanStep. intros H.
  apply andb_true_iff in H as [H H3]. apply andb_true_iff in H as [H H2].
  apply andb_true_iff in H as [_ H1].
  apply negb_true_iff in H1, H2, H3. now rewrite H1, H2, H3.
Qed.

(** The elements kept while cleaning: names, the last one first, on top of
    the [..] elements a path that is not rooted starts with. *)
Definition keptOK (root : bool) (kept : list string) : Prop :=
  exists names k,
    kept = names ++ repeat ".." k /\
    Forall (fun e => isName e = true) names /\
    (root = true -> k = 0).

Lemma cleanStep_keptOK (root : bool) (kept : list string) (e : string) :
  noSep e = true -> keptOK root kept -> keptOK root (cleanStep root kept e).
Proof.
  intros He (names & k & -> & Hn & Hk). unfold cleanStep.
  destruct (String.eqb_spec e EmptyString) as [->|H1]; [now exists names, k|].
  destruct (String.eqb_spec e ".") as [->|H2]; [now exists names, k|].
  cbn [orb].
  destruct (String.eqb_spec e "..") as [->|H3].
  - destruct names as [|n ns].
    + destruct k as [|k]; cbn [app repeat].
      * destruct root.
        -- now exists [], 0.
        -- exists [], 1. repeat split; [constructor | discriminate].
      * cbn [String.eqb Ascii.eqb Bool.eqb]. cbn.
        exists [], (S (S k)). repeat split; [constructor|].
        intros Hr. specialize (Hk Hr). discriminate.
    + apply Forall_cons in Hn as [Hn Hns]. cbn [app].
      destruct (String.eqb_spec n "..") as [->|_]; [discriminate|].
      now exists ns, k.
  - exists (e :: names), k. repeat split; [|exact Hk].
    constructor; [|exact Hn]. unfold isName. rewrite He.
    apply String.eqb_neq in H1, H2, H3. now rewrite H1, H2, H3.
Qed.

Lemma fold_keptOK (root : bool) (es kept : list string) :
  Forall (fun e => noSep e = true) es -> keptOK root kept ->
  keptOK root (fold_left (cleanStep root) es kept).
Proof.
  revert kept. induction es as [|e es IH]; intros kept Hes Hk; [exact Hk|].
  apply Forall_cons in Hes as [He Hes]. cbn [fold_left].
  apply IH; [exact Hes|]. now apply cleanStep_keptOK.
Qed.

Lemma fold_names (root : bool) (names kept : list string) :
  Forall (fun e => isName e = true) names ->
  fold_left (cleanStep root) names kept = rev names ++ kept.
Proof.
  revert kept. induction names as [|n ns IH]; intros kept H; [reflexivity|].
  apply Forall_cons in H as [Hn Hns]. cbn [fold_left rev].
  rewrite (cleanStep_name _ _ _ Hn), (IH _ Hns), <- app_assoc. reflexivity.
Qed.

Lemma fold_dotdots (k j : nat) :
  fold_left (cleanStep false) (repeat ".." k) (repeat ".." j) =
  repeat ".." (k + j).
Proof.
  revert j. induction k as [|k IH]; intros j; [reflexivity|].
  cbn [repeat fold_left].
  replace (cleanStep false (repeat ".." j) "..") with (repeat ".." (S j)).
  - rewrite IH. f_equal. lia.
  - destruct j; reflexivity.
Qed.

Lemma rev_dotdots (k : nat) : rev (repeat ".." k) = repeat (A := string) ".." k.
Proof.
  induction k as [|k IH]; [reflexivity|].
  cbn [repeat rev]. rewrite IH. clear IH.
  induction k as [|k IH]; [reflexivity|]. cbn [repeat app]. now rewrite IH.
Qed.

Lemma Forall_noSep_kept (names : list string) (k : nat) :
  Forall (fun e => isName e = true) names ->
  Forall (fun e => noSep e = true) (repeat ".." k ++ names).
Proof.
  intros H. apply Forall_app. split.
  - induction k; constructor; [reflexivity | assumption].
  - eapply Forall_impl; [exact H|]. apply isName_noSep.
Qed.

(** The cases of the test table of Go's [path] package. *)
Example Clean_test_table :
  forallb (fun '(path, cleaned) => String.eqb (Clean path) cleaned)
    [("abc", "abc"); ("abc/def", "abc/def"); ("a/b/c", "a/b/c"); (".", ".");
     ("..", ".."); ("../..", "../.."); ("../../abc", "../../abc");
     ("/abc", "/abc"); ("/", "/"); (EmptyString, ".");
     ("abc/", "abc"); ("abc/def/", "abc/def"); ("a/b/c/", "a/b/c");
     ("./", "."); ("../", ".."); ("../../", "../.."); ("/abc/", "/abc");
     ("abc//def//ghi", "abc/def/ghi"); ("//abc", "/abc"); ("///abc", "/abc");
     ("//abc//", "/abc"); ("abc//", "abc");
     ("abc/./def", "abc/def"); ("/./abc/def", "/abc/def"); ("abc/.", "abc");
     ("abc/def/ghi/../jkl", "abc/def/jkl");
     ("abc/def/../ghi/../jkl", "abc/jkl"); ("abc/def/..", "abc");
     ("abc/def/../..", "."); ("/abc/def/../..", "/");
     ("abc/def/../../..", ".."); ("/abc/def/../../..", "/");
     ("abc/def/../../../ghi/jkl/../../../mno", "../../mno");
     ("/../abc", "/abc");
     ("abc/./../def", "def"); ("abc//./../def", "def");
     ("abc/../../././../def", "../../def")]
  = true.
Proof. vm_compute. reflexivity. Qed.

(** Cleaning a cleaned path changes nothing. *)
Theorem Clean_idempotent (p : string) : Clean (Clean p) = Clean p.
Proof.
  unfold Clean at 2 3.
  destruct (fold_keptOK (rooted p) (elements p) [])
    as (names & k & Hkept & Hnames & Hk).
  { apply elements_noSep. }
  { exists [], 0. repeat split. constructor. }
  rewrite Hkept, rev_app_distr, rev_dotdots.
  set (ns := rev names).
  assert (Hns : Forall (fun e => isName e = true) ns).
  { unfold ns. apply Forall_forall. intros e He.
    rewrite Forall_forall in Hnames. apply Hnames.
    apply list_elem_of_In, in_rev, list_elem_of_In, He. }
  clearbody ns. clear Hkept Hnames names.
  destruct (rooted p) eqn:Hr.
  - rewrite (Hk eq_refl). cbn [repeat app].
    destruct ns as [|n ns]; [reflexivity|].
    unfold Clean.
    change (rooted ("/" +:+ join (n :: ns))) with true. cbv iota.
    change ("/" +:+ join (n :: ns))
      with (EmptyString +:+ String Separator (join (n :: ns))).
    rewrite elements_sep by reflexivity.
    rewrite elements_join;
      [|discriminate|exact (Forall_noSep_kept (n :: ns) 0 Hns)].
    change (fold_left (cleanStep true) (EmptyString :: n :: ns) [])
      with (fold_left (cleanStep true) (n :: ns) []).
    rewrite fold_names by exact Hns.
    now rewrite app_nil_r, rev_involutive.
  - destruct (repeat ".." k ++ ns) as [|e es] eqn:E; [reflexivity|].
    assert (Hall : Forall (fun e => noSep e = true) (e :: es)).
    { rewrite <- E. now apply Forall_noSep_kept. }
    assert (He : e <> EmptyString).
    { destruct k as [|k]; cbn in E.
      - subst ns. apply Forall_cons in Hns as [Hn _].
        intros ->. discriminate.
      - injection E as <- _. discriminate. }
    unfold Clean. rewrite rooted_join;
      [|now apply Forall_cons in Hall as [? _] | exact He].
    rewrite elements_join; [|discriminate | exact Hall].
    rewrite <- E, fold_left_app.
    pose proof (fold_dotdots k 0) as Hd. cbn [repeat] in Hd.
    rewrite Nat.add_0_r in Hd. rewrite Hd.
    rewrite fold_names by exact Hns.
    rewrite rev_app_distr, rev_involutive, rev_dotdots, E. reflexivity.
Qed.

End UnixFacts.

(** ** A workspace with three roots *)

Module Scenario.

(** A small outside world: what cache discovery finds in each directory,
    the directories it cannot read, and whether a toolchain is installed. *)
Record Env : Type := mkEnv {
  caches : list (string * rmState string);
  unreadable : list string;
  toolchain : bool
}.

Definition discoverCachesOutcome (e : Env) (dir : string)
           (rm : rootModule string) : rmState string * option error :=
  (match List.find (fun c => String.eqb c.1 dir) (caches e) with
   | Some c => c.2
   | None => emptyState
   end,
   if existsb (String.eqb dir) (unreadable e)
   then Some (ErrCollaborator "cannot read the caches")
   else None).

Definition loadOutcome (e : Env) (ctx : nat) (rm : rootModule string)
  : rmState string * option error :=
  if toolchain e
  then (mkState
          (st_initialized (rm_state rm))
          (st_initErr (rm_state rm))
          (st_referencedModulePaths (rm_state rm))
          (Some ("schema of " +:+ rm_path rm)) None,
        None)
  else (rm_state rm, Some (ErrCollaborator "terraform not found")).

Definition schemaCacheOutcome (e : Env) (ctx : nat) (rm : rootModule string)
  : rmState string * option error :=
  loadOutcome e ctx rm.

Definition initOutcome (e : Env) (ctx : nat) (rm : rootModule string)
  : Env * rmState string * option error :=
  if toolchain e
  then (e,
        mkState true None
          (st_referencedModulePaths (rm_state rm))
          (st_mergedSchema (rm_state rm))
          (st_schemaErr (rm_state rm)),
        None)
  else (e, rm_state rm, Some (ErrCollaborator "terraform not found")).

(** The manager's methods on Unix, in this outside world; schemas are named
    by strings, contexts by numbers, [0] being the background context. *)
Definition Add : nat -> string -> M string Env (option nat * option error) :=
  AddAndStartLoadingRootModule string nat 0 Env Unix.Clean
    discoverCachesOutcome loadOutcome.

Definition ByPath : world string Env -> string -> option nat * option error :=
  RootModuleByPath string Env Unix.Clean Unix.PathSeparator
    Unix.pluginLockFilePaths Unix.moduleManifestFilePath.

Definition Candidates : world string Env -> string -> list nat :=
  RootModuleCandidatesByPath string Env Unix.Clean Unix.PathSeparator
    Unix.pluginLockFilePaths Unix.moduleManifestFilePath.

Definition Schema : string -> M string Env (option string * option error) :=
  SchemaForPath string Env Unix.Clean Unix.PathSeparator
    Unix.pluginLockFilePaths Unix.moduleManifestFilePath.

Definition runNext : M string Env unit :=
  workerPool_run string nat 0 Env loadOutcome 0.

Definition Steps : world string Env -> world string Env -> Prop :=
  steps string nat 0 Env Unix.Clean Unix.PathSeparator
    Unix.pluginLockFilePaths Unix.moduleManifestFilePath
    discoverCachesOutcome loadOutcome initOutcome schemaCacheOutcome.

(** [/p/a] and [/p/b] both call the module in [/p/a/mod]; only [/p/a] was
    initialised.  [/p/c] was initialised and lists itself as a module.
    [/p/d] cannot be read.  No toolchain is installed. *)
Definition env0 : Env :=
  mkEnv [("/p/a", mkState true None ["/p/a/mod"] None None);
         ("/p/b", mkState false None ["/p/a/mod"] None None);
         ("/p/c", mkState true None ["/p/c"] None None)]
        ["/p/d"]
        false.

(** The same workspace once [/p/d] can be read and a toolchain is there. *)
Definition env1 : Env := mkEnv (caches env0) [] true.

Definition w0 : world string Env := newRootModuleManager env0.
Definition wA : world string Env := after (Add 1 "/p/a/") w0.
Definition wAB : world string Env := after (Add 2 "/p/b") wA.
Definition wABC : world string Env := after (Add 3 "/p/c") wAB.

(** The same manager, loading synchronously. *)
Definition w0sync : world string Env :=
  mkWorld []
    (mkManager [] true (mkPool [] false) EmptyString 0 EmptyString) env0 [].

Example registry_wABC :
  rms (rmm wABC) = [0; 1; 2] /\
  registered_paths wABC = ["/p/a"; "/p/b"; "/p/c"] /\
  waitingQueue (pool (rmm wABC)) = [0; 1; 2].
Proof. repeat split. Qed.

Example manifest_path_resolves :
  ByPath wABC "/p/a/.terraform/modules/modules.json" = (Some 0, None) /\
  ByPath wABC "/p/b/.terraform/plugins/selections.json" = (Some 1, None) /\
  ByPath wABC "/p/a/mod" = (None, Some (RootModuleNotFoundErr "/p/a/mod")).
Proof. repeat split. Qed.

Example shared_module_candidates :
  Candidates wABC "/p/a/mod" = [0; 1] /\
  Candidates wABC "/p/a" = [0] /\
  Candidates wABC "/p/b" = [].
Proof. repeat split. Qed.

(** Decidable facts about the workspace are settled by evaluation. *)
Ltac by_evaluation :=
  lazymatch goal with
  | |- ~ ?P => apply (bool_decide_eq_false_1 P); vm_compute; reflexivity
  | |- ?P => apply (bool_decide_eq_true_1 P); vm_compute; reflexivity
  end.

Lemma Steps_Add (ctx : nat) (d : string) (w : world string Env) :
  Steps w (after (Add ctx d) w).
Proof. apply rtc_once. unfold Add. apply step_Add. Defined.

Lemma Steps_trans (a b c : world string Env) :
  Steps a b -> Steps b c -> Steps a c.
Proof. unfold Steps, steps. apply rtc_trans. Defined.

Lemma steps_wABC : Steps w0 wABC.
Proof.
  apply (Steps_trans _ wA); [exact (Steps_Add 1 "/p/a/" w0)|].
  apply (Steps_trans _ wAB); [exact (Steps_Add 2 "/p/b" wA)|].
  exact (Steps_Add 3 "/p/c" wAB).
Defined.

Lemma wf_wABC : wf wABC.
Proof.
  exact (reachable_wf _ _ _ _ _ _ _ _ _ _ _ _ env0 wABC steps_wABC).
Defined.

(** C1, in the workspace: [/p/a/.] after [/p/a/], with [/p/b] and [/p/c]
    registered in between. *)
Lemma second_registration_witness :
  Add 4 "/p/a/." wABC =
    ((None, Some (ErrAlreadyAdded (Unix.Clean "/p/a/"))), wABC) /\
  rootsAt wABC (Unix.Clean "/p/a/") = [0].
Proof.
  refine (second_registration_is_rejected string nat 0 Env Unix.Clean
            Unix.PathSeparator Unix.pluginLockFilePaths
            Unix.moduleManifestFilePath discoverCachesOutcome loadOutcome
            initOutcome schemaCacheOutcome
            w0 wABC 1 4 "/p/a/" "/p/a/." 0 _ _ _ _).
  - apply wf_new.
  - reflexivity.
  - apply (Steps_trans _ wAB); [exact (Steps_Add 2 "/p/b" wA)|].
    exact (Steps_Add 3 "/p/c" wAB).
  - reflexivity.
Defined.

(** C2, in the workspace: the manifest of [/p/a] resolves to [/p/a]. *)
Lemma manifest_lookup_witness :
  ByPath wABC "/p/a/.terraform/modules/modules.json" = (Some 0, None).
Proof.
  refine (proj1 (proj1 (proj2
            (RootModuleByPath_spec string Env Unix.Clean Unix.PathSeparator
               Unix.pluginLockFilePaths Unix.moduleManifestFilePath
               wABC "/p/a/.terraform/modules/modules.json" wf_wABC))
            _ ["/.terraform/plugins/selections.json"]
            "/.terraform/modules/modules.json" [] "/p/a" eq_refl _ eq_refl)
            0 _ eq_refl).
  - by_evaluation.
  - intros s' Hs'. apply list_elem_of_singleton in Hs'. subst s'.
    vm_compute. reflexivity.
  - by_evaluation.
Defined.

(** C3, as it is stated: asked for [/p/a/mod/], the manager answers with the
    two roots that reference [/p/a/mod], although no root lists
    [/p/a/mod/] among its module paths. *)
Lemma uncleaned_path_counterexample :
  Candidates wABC "/p/a/mod/" = [0; 1] /\
  initializedDirectMatch string Env Unix.Clean Unix.PathSeparator
    Unix.pluginLockFilePaths Unix.moduleManifestFilePath wABC "/p/a/mod/" ++
  referencingRoots wABC "/p/a/mod/" = [] /\
  Candidates wABC "/p/a/mod/" <>
  initializedDirectMatch string Env Unix.Clean Unix.PathSeparator
    Unix.pluginLockFilePaths Unix.moduleManifestFilePath wABC "/p/a/mod/" ++
  referencingRoots wABC "/p/a/mod/".
Proof.
  split; [reflexivity|]. split; [vm_compute; reflexivity|].
  vm_compute. discriminate.
Qed.

(** C5, in the workspace: without a toolchain every load fails.  The
    asynchronous registration of [/p/a/] returns no error and the worker
    records the failure on the root; the synchronous one returns it. *)
Lemma loading_modes_witness :
  result (Add 1 "/p/a/") w0 = (Some 0, None) /\
  rm_loadErr (deref (after runNext wA) 0) =
    Some (ErrCollaborator "terraform not found") /\
  result (Add 1 "/p/a/") w0sync =
    (Some 0, Some (ErrCollaborator "terraform not found")).
Proof.
  assert (Hnew : Unix.Clean "/p/a/" ∉ registered_paths w0) by by_evaluation.
  assert (Hnew' : Unix.Clean "/p/a/" ∉ registered_paths w0sync)
    by by_evaluation.
  pose proof (loading_modes string nat 0 Env Unix.Clean
                discoverCachesOutcome loadOutcome w0 1 "/p/a/"
                Hnew eq_refl) as [Hasync _].
  pose proof (loading_modes string nat 0 Env Unix.Clean
                discoverCachesOutcome loadOutcome w0sync 1 "/p/a/"
                Hnew' eq_refl) as [_ Hsync].
  destruct (Hasync eq_refl) as (Hres & _ & _ & _ & Hlater).
  split; [exact Hres|]. split.
  - destruct (Hlater wA 0 eq_refl eq_refl) as [_ Herr].
    + vm_compute. lia.
    + exact Herr.
  - exact (Hsync eq_refl).
Defined.

(** C8, in the workspace: [/p/a/./] and [/p/a] are the same root. *)
Lemma cleaned_lookup_witness :
  ByPath wABC "/p/a/./" =
    ByPath wABC (Path (deref wABC 0)) /\
  ByPath wABC "/p/a/./" = (Some 0, None).
Proof.
  assert (Hin : 0 ∈ rms (rmm wABC)) by by_evaluation.
  destruct (RootModuleByPath_cleaned string Env Unix.Clean Unix.PathSeparator
              Unix.pluginLockFilePaths Unix.moduleManifestFilePath
              UnixFacts.Clean_idempotent wABC 0 "/p/a/./" Hin eq_refl)
    as [Hsame Hroot].
  split; [exact Hsame | exact (Hroot wf_wABC)].
Defined.

(** A synchronous manager with a toolchain, where a load would give the
    root a schema; [/p/d] cannot be read. *)
Definition wDsync : world string Env :=
  mkWorld []
    (mkManager [] true (mkPool [] false) EmptyString 0 EmptyString)
    (mkEnv (caches env0) ["/p/d"] true) [].

(** C9, in the workspace: [/p/d] cannot be read, so registering it fails and
    leaves the manager as it was; once it can be read, registering it again
    succeeds.  With a toolchain and synchronous loading, the entity left
    behind has no schema: it was not loaded. *)
Lemma factory_failure_witness :
  result (Add 1 "/p/d") w0 =
    (None, Some (ErrCollaborator "cannot read the caches")) /\
  rmm (after (Add 1 "/p/d") w0) = rmm w0 /\
  (exists rm,
     (result (Add 2 "/p/d")
        (with_env env1 (after (Add 1 "/p/d") w0))).1 =
     Some rm) /\
  heap (after (Add 1 "/p/d") wDsync) =
    [mkRootModule string "/p/d" EmptyString 0 EmptyString emptyState false
                  None] /\
  trace (after (Add 1 "/p/d") wDsync) = [].
Proof.
  assert (Hnew : Unix.Clean "/p/d" ∉ registered_paths w0) by by_evaluation.
  assert (Hnew' : Unix.Clean "/p/d" ∉ registered_paths wDsync)
    by by_evaluation.
  pose proof (factory_failure_registers_nothing string nat 0 Env Unix.Clean
                discoverCachesOutcome loadOutcome w0 1 "/p/d"
                (ErrCollaborator "cannot read the caches")
                Hnew eq_refl)
    as (Hres & _ & _ & _ & Hrmm & _ & _ & _ & _ & Hagain).
  pose proof (factory_failure_registers_nothing string nat 0 Env Unix.Clean
                discoverCachesOutcome loadOutcome wDsync 1 "/p/d"
                (ErrCollaborator "cannot read the caches")
                Hnew' eq_refl)
    as (_ & Hheap & _ & _ & _ & Htrace & _).
  split; [exact Hres|]. split; [exact Hrmm|]. split.
  - destruct (Hagain (wf_new string Env env0) env1 2 eq_refl)
      as (rm & Hrm & _).
    exists rm. exact Hrm.
  - split; [exact Hheap | exact Htrace].
Defined.

(** C10: the candidates are not deduplicated.  [/p/c] is initialised and
    lists itself among its module paths, so it is the direct match of [/p/c]
    and references it, and the list of candidates holds it twice. *)
Theorem candidates_are_not_deduplicated :
  exists (w : world string Env) (p : string) (r : nat),
    Steps w0 w /\
    ByPath w p = (Some r, None) /\
    st_initialized (rm_state (deref w r)) = true /\
    p ∈ st_referencedModulePaths (rm_state (deref w r)) /\
    Candidates w p = [r; r].
Proof.
  exists wABC, "/p/c", 2. split; [exact steps_wABC|].
  split; [reflexivity|]. split; [reflexivity|].
  split; [by_evaluation | reflexivity].
Qed.

(** X1, in the workspace. *)
Lemma unique_paths_witness :
  NoDup (registered_paths wABC) /\
  Forall (fun rm => rm < length (heap wABC))
         (rms (rmm wABC)).
Proof.
  exact (registered_paths_are_unique string nat 0 Env Unix.Clean
           Unix.PathSeparator Unix.pluginLockFilePaths
           Unix.moduleManifestFilePath discoverCachesOutcome loadOutcome
           initOutcome schemaCacheOutcome env0 wABC steps_wABC).
Defined.

(** X2, in the workspace: from the registration of [/p/a] to that of
    [/p/c]. *)
Lemma append_only_witness :
  rms (rmm wA) `prefix_of` rms (rmm wABC) /\
  forall rm x, heap wA !! rm = Some x ->
    exists x', heap wABC !! rm = Some x' /\
               rm_path x' = rm_path x.
Proof.
  refine (registry_is_append_only string nat 0 Env Unix.Clean
            Unix.PathSeparator Unix.pluginLockFilePaths
            Unix.moduleManifestFilePath discoverCachesOutcome loadOutcome
            initOutcome schemaCacheOutcome wA wABC _).
  apply (Steps_trans _ wAB); [exact (Steps_Add 2 "/p/b" wA)|].
  exact (Steps_Add 3 "/p/c" wAB).
Defined.

(** With a toolchain, the worker loads the schema of [/p/a]; a file of the
    module [/p/a/mod] then gets that schema, and a path nobody registered gets
    the lookup's error. *)
Definition wLoaded : world string Env :=
  after runNext
    (after (Add 1 "/p/a") (newRootModuleManager env1)).

(** C4, in the workspace: the candidate that references [/p/a/mod] yields
    the schema; for [/p/x] there is no candidate and the lookup fails. *)
Lemma schema_resolution_witness :
  Schema "/p/a/mod" wLoaded =
    ((Some "schema of /p/a", None),
     with_trace (trace wLoaded ++ [LogFoundSchema "/p/a/mod" "/p/a"])
       wLoaded) /\
  Schema "/p/x" wLoaded =
    ((None, Some (RootModuleNotFoundErr "/p/x")), wLoaded).
Proof.
  destruct (SchemaForPath_spec string Env Unix.Clean Unix.PathSeparator
              Unix.pluginLockFilePaths Unix.moduleManifestFilePath
              wLoaded "/p/a/mod") as [Hfound _].
  destruct (SchemaForPath_spec string Env Unix.Clean Unix.PathSeparator
              Unix.pluginLockFilePaths Unix.moduleManifestFilePath
              wLoaded "/p/x") as [_ Hnone].
  split.
  - refine (Hfound [] 0 [] "schema of /p/a" eq_refl _ eq_refl).
    intros x Hx. inversion Hx.
  - refine (proj2 (Hnone _) (RootModuleNotFoundErr "/p/x") eq_refl).
    intros x Hx. inversion Hx.
Defined.

(** C6, in the workspace: the three roots are cancelled, and a second call
    changes nothing but the log. *)
Lemma cancellation_witness :
  rm_cancelled (deref (after CancelLoading wABC) 1) = true /\
  heap (after CancelLoading (after CancelLoading wABC)) =
    heap (after CancelLoading wABC) /\
  rmm (after CancelLoading (after CancelLoading wABC)) =
    rmm (after CancelLoading wABC).
Proof.
  destruct (CancelLoading_spec string Env wABC)
    as (_ & _ & Hcancelled & _ & _ & _ & Hheap & Hrmm & _).
  split; [|split; [exact Hheap | exact Hrmm]].
  assert (Hin : 1 ∈ rms (rmm wABC)) by by_evaluation.
  unfold deref. rewrite (Hcancelled 1 (deref wABC 1) Hin eq_refl).
  reflexivity.
Defined.

(** C7, in the workspace: the toolchain is pinned after [/p/a] was
    registered; [/p/b], registered afterwards, carries the pin and [/p/a]
    does not. *)
Definition wPinned : world string Env :=
  after (SetTerraformExecPath string Env "/usr/bin/terraform") wA.

Lemma setter_witness :
  rm_tfExecPath (deref (after (Add 2 "/p/b") wPinned) 1) =
    "/usr/bin/terraform" /\
  exists x', heap (after (Add 2 "/p/b") wPinned) !! 0 = Some x' /\
             rm_tfExecPath x' = EmptyString.
Proof.
  destruct (setters_seed_later_roots_only string nat 0 Env Unix.Clean
              Unix.PathSeparator Unix.pluginLockFilePaths
              Unix.moduleManifestFilePath discoverCachesOutcome loadOutcome
              initOutcome schemaCacheOutcome wA)
    as (Hpath & _ & _ & Hkeep).
  destruct (Hpath "/usr/bin/terraform") as (_ & _ & Hnew).
  split.
  - exact (Hnew 2 "/p/b" 1 eq_refl).
  - destruct (Hkeep (after (Add 2 "/p/b") wPinned) 0 (deref wA 0))
      as (x' & Hx' & _ & Hp & _).
    + apply (Steps_trans _ wPinned); [|exact (Steps_Add 2 "/p/b" wPinned)].
      apply rtc_once.
      exact (step_SetTerraformExecPath _ _ _ _ _ _ _ _ _ _ _ _
               "/usr/bin/terraform" wA).
    + reflexivity.
    + exists x'. split; [exact Hx' | exact Hp].
Defined.

Example schema_of_referenced_module :
  Schema "/p/a/mod" wLoaded =
    ((Some "schema of /p/a", None),
     with_trace
       (trace wLoaded ++ [LogFoundSchema "/p/a/mod" "/p/a"])
       wLoaded) /\
  result (Schema "/p/x") wLoaded =
    (None, Some (RootModuleNotFoundErr "/p/x")).
Proof. split; reflexivity. Qed.

Example cancel_three_roots :
  trace (after CancelLoading wABC) =
    trace wABC ++
    [LogCancelling "/p/a"; EvCancelLoading 0; LogCancelled "/p/a";
     LogCancelling "/p/b"; EvCancelLoading 1; LogCancelled "/p/b";
     LogCancelling "/p/c"; EvCancelLoading 2; LogCancelled "/p/c";
     EvPoolStop] /\
  pool (rmm (after CancelLoading wABC)) =
    mkPool [] true.
Proof. split; reflexivity. Qed.

(** *** The rest of the manager, in the workspace *)

Definition InitAndUpdate
  : nat -> string -> M string Env (option nat * option error) :=
  InitAndUpdateRootModule string nat Env Unix.Clean Unix.PathSeparator
    Unix.pluginLockFilePaths Unix.moduleManifestFilePath
    discoverCachesOutcome initOutcome schemaCacheOutcome.

Definition Open : nat -> string -> M string Env (option nat * option error) :=
  TextDocumentDidOpen_rootModule string nat 0 Env Unix.Clean
    Unix.PathSeparator Unix.pluginLockFilePaths Unix.moduleManifestFilePath
    discoverCachesOutcome loadOutcome.

Lemma steps_wLoaded : Steps (newRootModuleManager env1) wLoaded.
Proof.
  apply (Steps_trans _ (after (Add 1 "/p/a") (newRootModuleManager env1)));
    [exact (Steps_Add 1 "/p/a" (newRootModuleManager env1))|].
  apply rtc_once.
  exact (step_worker _ _ _ _ _ _ _ _ _ _ _ _ 0
           (after (Add 1 "/p/a") (newRootModuleManager env1))).
Defined.

Lemma wf_wLoaded : wf wLoaded.
Proof.
  exact (reachable_wf _ _ _ _ _ _ _ _ _ _ _ _ env1 wLoaded steps_wLoaded).
Defined.

Lemma wf_w0sync : wf w0sync.
Proof. split; cbn; constructor. Defined.

(** X3, in the workspace: [/p/a/] was registered first; after the
    registrations of [/p/b] and [/p/c], [/p/a/.] finds its root. *)
Lemma found_after_registration_witness :
  ByPath wABC "/p/a/." = (Some 0, None) /\
  0 ∈ ListRootModules wABC /\
  Path (deref wABC 0) = Unix.Clean "/p/a/".
Proof.
  refine (registered_root_is_found string nat 0 Env Unix.Clean
            Unix.PathSeparator Unix.pluginLockFilePaths
            Unix.moduleManifestFilePath discoverCachesOutcome loadOutcome
            initOutcome schemaCacheOutcome
            w0 wABC 1 "/p/a/" "/p/a/." 0 _ _ _ _).
  - apply wf_new.
  - reflexivity.
  - apply (Steps_trans _ wAB); [exact (Steps_Add 2 "/p/b" wA)|].
    exact (Steps_Add 3 "/p/c" wAB).
  - reflexivity.
Defined.

(** X6, in the workspace: the candidates for [/p/c], where the root is
    listed twice. *)
Lemma candidates_bound_witness :
  (forall rm, rm ∈ Candidates wABC "/p/c" -> rm ∈ rms (rmm wABC)) /\
  (forall rm, count_occ Nat.eq_dec (Candidates wABC "/p/c") rm <= 2) /\
  length (Candidates wABC "/p/c") <= S (length (rms (rmm wABC))) /\
  (rms (rmm wABC) = [] -> Candidates wABC "/p/c" = []).
Proof.
  exact (candidates_are_registered_roots string Env Unix.Clean
           Unix.PathSeparator Unix.pluginLockFilePaths
           Unix.moduleManifestFilePath wABC "/p/c" wf_wABC).
Defined.

(** X9, in the workspace: [/p/a] is initialised and loaded, and gets its
    own schema. *)
Lemma own_schema_wins_witness :
  Schema "/p/a/" wLoaded =
    ((Some "schema of /p/a", None),
     with_trace (trace wLoaded ++ [LogFoundSchema "/p/a/" (Unix.Clean "/p/a/")])
       wLoaded).
Proof.
  refine (initialized_root_schema_wins string Env Unix.Clean
            Unix.PathSeparator Unix.pluginLockFilePaths
            Unix.moduleManifestFilePath wLoaded "/p/a/" 0 "schema of /p/a"
            wf_wLoaded _ eq_refl eq_refl eq_refl).
  by_evaluation.
Defined.

(** X12, in the workspace: without a toolchain the synchronous load of
    [/p/a/] fails, and [/p/a] is registered all the same. *)
Lemma failed_sync_load_witness :
  syncLoading (rmm w0sync) = true /\
  (loadOutcome (env w0sync) 1
     (newEntity string Env discoverCachesOutcome w0sync (Unix.Clean "/p/a/"))).2 =
    Some (ErrCollaborator "terraform not found") /\
  ByPath (after (Add 1 "/p/a/") w0sync) "/p/a/" = (Some 0, None) /\
  forall ctx',
    Add ctx' "/p/a/" (after (Add 1 "/p/a/") w0sync) =
    ((None, Some (ErrAlreadyAdded (Unix.Clean "/p/a/"))),
     after (Add 1 "/p/a/") w0sync).
Proof.
  exact (failed_sync_load_still_registers string nat 0 Env Unix.Clean
           Unix.PathSeparator Unix.pluginLockFilePaths
           Unix.moduleManifestFilePath discoverCachesOutcome loadOutcome
           initOutcome schemaCacheOutcome
           w0sync 1 "/p/a/" 0 (ErrCollaborator "terraform not found")
           wf_w0sync eq_refl).
Defined.

(** X13, in the workspace: with a toolchain the init of [/p/a] succeeds and
    the root is returned; without one it fails; [/p/x] is not known. *)
Lemma init_and_update_witness :
  result (InitAndUpdate 5 "/p/a/") wLoaded = (Some 0, None) /\
  result (InitAndUpdate 5 "/p/a/") wABC =
    (None, Some (ErrFailedToInit (ErrCollaborator "terraform not found"))) /\
  InitAndUpdate 5 "/p/x" wABC =
    ((None, Some (ErrFailedToGetRootModule (RootModuleNotFoundErr "/p/x"))),
     wABC).
Proof.
  pose proof (InitAndUpdateRootModule_outcomes string nat Env Unix.Clean
                Unix.PathSeparator Unix.pluginLockFilePaths
                Unix.moduleManifestFilePath discoverCachesOutcome initOutcome
                schemaCacheOutcome wLoaded 5 "/p/a/" wf_wLoaded) as H1.
  pose proof (InitAndUpdateRootModule_outcomes string nat Env Unix.Clean
                Unix.PathSeparator Unix.pluginLockFilePaths
                Unix.moduleManifestFilePath discoverCachesOutcome initOutcome
                schemaCacheOutcome wABC 5 "/p/a/" wf_wABC) as H2.
  pose proof (InitAndUpdateRootModule_outcomes string nat Env Unix.Clean
                Unix.PathSeparator Unix.pluginLockFilePaths
                Unix.moduleManifestFilePath discoverCachesOutcome initOutcome
                schemaCacheOutcome wABC 5 "/p/x" wf_wABC) as H3.
  vm_compute in H1, H2, H3. vm_compute.
  destruct H1 as [[H1 _] _]. destruct H2 as [[H2 _] _]. destruct H3 as [H3 H3'].
  split; [exact H1|]. split; [exact H2|]. exact (f_equal2 pair H3 H3').
Defined.

(** X15, in the workspace: [/p/b] is found at its own path. *)
Lemma listed_roots_witness :
  Unix.Clean (Path (deref wABC 1)) = Path (deref wABC 1) /\
  ByPath wABC (Path (deref wABC 1)) = (Some 1, None).
Proof.
  refine (listed_roots_are_found string nat 0 Env Unix.Clean
            Unix.PathSeparator Unix.pluginLockFilePaths
            Unix.moduleManifestFilePath discoverCachesOutcome loadOutcome
            initOutcome schemaCacheOutcome UnixFacts.Clean_idempotent
            env0 wABC 1 steps_wABC _).
  by_evaluation.
Defined.

(** X16, in the workspace: the new manager knows no path. *)
Lemma empty_registry_witness :
  ListRootModules w0 = [] /\
  ByPath w0 "/p/a/" = (None, Some (RootModuleNotFoundErr (Unix.Clean "/p/a/"))) /\
  Candidates w0 "/p/a/" = [] /\
  Schema "/p/a/" w0 =
    ((None, Some (RootModuleNotFoundErr (Unix.Clean "/p/a/"))), w0) /\
  InitAndUpdate 7 "/p/a/" w0 =
    ((None, Some (ErrFailedToGetRootModule
                    (RootModuleNotFoundErr (Unix.Clean "/p/a/")))), w0) /\
  CancelLoading w0 =
    (tt, mkWorld (heap w0) (with_pool (mkPool [] true) (rmm w0)) (env w0)
                 (trace w0 ++ [EvPoolStop])).
Proof.
  exact (empty_registry_knows_no_path string nat Env Unix.Clean
           Unix.PathSeparator Unix.pluginLockFilePaths
           Unix.moduleManifestFilePath discoverCachesOutcome initOutcome
           schemaCacheOutcome w0 7 "/p/a/" eq_refl).
Defined.

Lemma Open_registers : after (Open 1 "/p/a/") w0 = wA.
Proof. vm_compute. reflexivity. Defined.

(** X17, in the workspace: [/p/a/] is opened in the new manager, which
    registers it; opened again as [/p/a/.] after [/p/b] and [/p/c] were
    registered, it is found. *)
Lemma reopening_witness :
  exists rm',
    Open 9 "/p/a/." wABC = ((Some rm', None), wABC) /\
    (Path (deref (after (Open 1 "/p/a/") w0) 0) = Unix.Clean "/p/a/" ->
     rm' = 0).
Proof.
  refine (reopening_registers_nothing string nat 0 Env Unix.Clean
            Unix.PathSeparator Unix.pluginLockFilePaths
            Unix.moduleManifestFilePath discoverCachesOutcome loadOutcome
            initOutcome schemaCacheOutcome
            w0 wABC 1 9 "/p/a/" "/p/a/." 0 _ _ _ _).
  - apply wf_new.
  - vm_compute. reflexivity.
  - fold Open. rewrite Open_registers.
    apply (Steps_trans _ wAB); [exact (Steps_Add 2 "/p/b" wA)|].
    exact (Steps_Add 3 "/p/c" wAB).
  - reflexivity.
Defined.

(** X23, in the workspace: the manifest of [/p/a] resolves to [/p/a] before
    and after the registrations of [/p/b] and [/p/c]. *)
Lemma resolved_stays_witness :
  exists rm',
    ByPath wABC "/p/a/.terraform/modules/modules.json" = (Some rm', None) /\
    (Path (deref wA 0) = Unix.Clean "/p/a/.terraform/modules/modules.json" ->
     rm' = 0) /\
    (rm' = 0 \/
     Path (deref wABC rm') = Unix.Clean "/p/a/.terraform/modules/modules.json").
Proof.
  refine (resolved_paths_stay_resolved string nat 0 Env Unix.Clean
            Unix.PathSeparator Unix.pluginLockFilePaths
            Unix.moduleManifestFilePath discoverCachesOutcome loadOutcome
            initOutcome schemaCacheOutcome
            wA wABC "/p/a/.terraform/modules/modules.json" 0 _ _ _).
  - exact (reachable_wf _ _ _ _ _ _ _ _ _ _ _ _ env0 wA
             (Steps_Add 1 "/p/a/" w0)).
  - apply (Steps_trans _ wAB); [exact (Steps_Add 2 "/p/b" wA)|].
    exact (Steps_Add 3 "/p/c" wAB).
  - vm_compute. reflexivity.
Defined.

(** A toolchain for the formatter: an executor is the directory and the
    executable it was created for, a formatter names both. *)
Definition Formatter_for (disco : Env -> string * option error)
  : nat -> string -> world string Env
    -> (option string * option error) * list formatterLog :=
  TerraformFormatterForDir string nat Env Unix.Clean Unix.PathSeparator
    Unix.pluginLockFilePaths Unix.moduleManifestFilePath
    (string * string) string
    (fun rm => (Some ("terraform fmt in " +:+ rm_path rm), None))
    disco
    (fun _ workDir tfPath => ((workDir, tfPath), None))
    (fun tf => tf) (fun _ tf => tf) (fun _ tf => tf)
    (fun _ _ _ => ("0.13.0", None))
    snd
    (fun tf => tf.2 +:+ " fmt in " +:+ tf.1).

Definition found_on_PATH (e : Env) : string * option error :=
  ("/usr/local/bin/terraform", None).

Definition not_installed (e : Env) : string * option error :=
  (EmptyString, Some (ErrCollaborator "terraform not found")).

(** X21, in the workspace: with [/usr/bin/terraform] pinned, the formatter
    for [/p/x], which has no root, is the same whether or not discovery
    would find a toolchain. *)
Lemma pinned_formatter_witness :
  Formatter_for found_on_PATH 5 "/p/x" wPinned =
  Formatter_for not_installed 5 "/p/x" wPinned.
Proof.
  refine (pinned_path_skips_discovery string nat Env Unix.Clean
            Unix.PathSeparator Unix.pluginLockFilePaths
            Unix.moduleManifestFilePath (string * string) string
            _ found_on_PATH not_installed _ _ _ _ _ _ _
            wPinned 5 "/p/x" _).
  by_evaluation.
Defined.

Example formatter_in_the_workspace :
  Formatter_for not_installed 5 "/p/x" wPinned =
    ((Some "/usr/bin/terraform fmt in /p/x", None),
     [LogVersionFound "0.13.0" "/usr/bin/terraform"]) /\
  Formatter_for not_installed 5 "/p/x" wA =
    ((None, Some (ErrCollaborator "terraform not found")), []) /\
  Formatter_for not_installed 5 "/p/a/main.tf/.." wPinned =
    ((Some "terraform fmt in /p/a", None), []).
Proof. repeat split. Qed.

End Scenario.
